(** * Conway's Game of Life on a 40x25 character screen (life.c)

    A shallow embedding of [src/targets/6502/c64/life.c] and the
    properties of its simulation engine.

    The C program keeps two global byte arrays, the memory-mapped
    [screen] and the scratch grid [_field_count], and two global
    parameters.  The embedding threads them through a state-and-error
    monad: every array access checks its subscripts, so an access the C
    standard leaves undefined makes the model fail with [None], and a
    theorem of the shape [f st = Some (r, st')] also says that [f] never
    leaves its arrays. *)

From Stdlib Require Import ZArith List Lia Bool.
From stdpp Require Import base tactics option list list_numbers.

Local Open Scope Z_scope.

(** ** Constants of the program *)

Definition ALIVE : Z := 88.
Definition DEAD : Z := 32.
Definition SPACE : Z := 32.
Definition WIDTH : Z := 40.
Definition HEIGHT : Z := 25.

(** Conversion to [BYTE] (unsigned char): reduction modulo 256. *)
Definition to_BYTE (z : Z) : Z := z mod 256.

(** ** Program state *)

(** [screen] and [_field_count] are [HEIGHT][WIDTH] byte arrays, stored
    row after row as C lays them out.  [rand_src] is the sequence of
    values the C library's [rand()] is going to return and [rand_calls]
    the number of values already drawn. *)
Record state : Type := mkState {
  screen : list Z;
  _field_count : list Z;
  _limit : Z;
  _iterations : N;
  rand_src : nat → Z;
  rand_calls : nat
}.

Definition set_screen (s : list Z) (st : state) : state :=
  mkState s (_field_count st) (_limit st) (_iterations st)
          (rand_src st) (rand_calls st).

Definition set_field_count (c : list Z) (st : state) : state :=
  mkState (screen st) c (_limit st) (_iterations st)
          (rand_src st) (rand_calls st).

Definition set_limit (l : Z) (st : state) : state :=
  mkState (screen st) (_field_count st) l (_iterations st)
          (rand_src st) (rand_calls st).

Definition set_iterations (n : N) (st : state) : state :=
  mkState (screen st) (_field_count st) (_limit st) n
          (rand_src st) (rand_calls st).

Definition set_rand_calls (k : nat) (st : state) : state :=
  mkState (screen st) (_field_count st) (_limit st) (_iterations st)
          (rand_src st) k.

(** Both arrays have their declared size. *)
Definition array_size : nat := Z.to_nat (HEIGHT * WIDTH).

Definition wf (st : state) : Prop :=
  length (screen st) = array_size ∧ length (_field_count st) = array_size.

(** ** Array access *)

(** Offset of element [a[y][x]] of a [HEIGHT][WIDTH] array. *)
Definition idx (y x : Z) : nat := Z.to_nat (y * WIDTH + x).

(** Both subscripts lie inside the array. *)
Definition in_array (y x : Z) : bool :=
  (0 <=? y) && (y <? HEIGHT) && (0 <=? x) && (x <? WIDTH).

Definition load (a : list Z) (y x : Z) : option Z :=
  if in_array y x then a !! idx y x else None.

Definition store (a : list Z) (y x v : Z) : option (list Z) :=
  if in_array y x && bool_decide (idx y x < length a)%nat
  then Some (<[idx y x := v]> a)
  else None.

(** ** The monad of the program: state, and failure on a bad access *)

Definition M (A : Type) : Type := state → option (A * state).

Definition ret {A} (a : A) : M A := λ st, Some (a, st).

Definition bind {A B} (m : M A) (k : A → M B) : M B :=
  λ st, match m st with
        | Some (a, st') => k a st'
        | None => None
        end.

Notation "x <- m ;; k" := (bind m (λ x, k))
  (at level 100, m at next level, right associativity).
Notation "m ;;; k" := (bind m (λ _, k))
  (at level 100, right associativity).

Definition read_screen (y x : Z) : M Z :=
  λ st, match load (screen st) y x with
        | Some v => Some (v, st)
        | None => None
        end.

Definition write_screen (y x v : Z) : M unit :=
  λ st, match store (screen st) y x v with
        | Some s => Some (tt, set_screen s st)
        | None => None
        end.

Definition read_count (y x : Z) : M Z :=
  λ st, match load (_field_count st) y x with
        | Some v => Some (v, st)
        | None => None
        end.

Definition write_count (y x v : Z) : M unit :=
  λ st, match store (_field_count st) y x v with
        | Some c => Some (tt, set_field_count c st)
        | None => None
        end.

(** [rand()]: the next value of the random source. *)
Definition rand : M Z :=
  λ st, Some (rand_src st (rand_calls st),
              set_rand_calls (S (rand_calls st)) st).

Definition get_limit : M Z := λ st, Some (_limit st, st).
Definition get_iterations : M N := λ st, Some (_iterations st, st).

(** ** Loops *)

(** Run [body] for each index of [l] in turn, threading the local
    variable [a] the loop updates. *)
Fixpoint forM {A} (l : list Z) (body : Z → A → M A) (a : A) : M A :=
  match l with
  | [] => ret a
  | i :: l' => a' <- body i a ;; forM l' body a'
  end.

(** [for (i = lo; i < hi; i++) body], no local variable updated. *)
Definition for_lt (lo hi : Z) (body : Z → M unit) : M unit :=
  forM (seqZ lo (hi - lo)) (λ i _, body i) tt.

(** [for (i = lo; i <= hi; i++) body], updating the local [a]. *)
Definition for_le {A} (lo hi : Z) (a : A) (body : Z → A → M A) : M A :=
  forM (seqZ lo (hi + 1 - lo)) body a.

(** ** The functions of life.c *)

Definition calculate_field : M unit :=
  for_lt 1 (HEIGHT - 1) (λ y,
    for_lt 1 (WIDTH - 1) (λ x,
      count <- read_count y x ;;
      current <- read_screen y x ;;
      if current =? ALIVE then
        if (count <? 2) || (count >? 3) then write_screen y x DEAD
        else ret tt
      else if count =? 3 then write_screen y x ALIVE
      else ret tt)).

Definition count_neighbours (y x : Z) : M Z :=
  for_le (-1) 1 0 (λ dy count,
    for_le (-1) 1 count (λ dx count,
      if (dy =? 0) && (dx =? 0) then ret count
      else
        c <- read_screen (y + dy) (x + dx) ;;
        if c =? ALIVE then ret (count + 1) else ret count)).

Definition count_field : M unit :=
  for_lt 1 (HEIGHT - 1) (λ y,
    for_lt 1 (WIDTH - 1) (λ x,
      n <- count_neighbours y x ;;
      write_count y x (to_BYTE n))).

Definition init_screen : M unit :=
  for_lt 1 (HEIGHT - 1) (λ y,
    for_lt 1 (WIDTH - 1) (λ x,
      r <- rand ;;
      limit <- get_limit ;;
      let c := if r <? limit then DEAD else ALIVE in
      write_screen y x c)).

(** The body of the loop of [calculate]: one generation. *)
Definition generation : M unit :=
  count_field ;;; calculate_field.

Definition calculate : M unit :=
  n <- get_iterations ;;
  for_lt 0 (Z.of_N n) (λ _, generation).

(** ** Reading a grid *)

(** Value of cell [(y, x)] of a grid (0 outside the list). *)
Definition cell (a : list Z) (y x : Z) : Z := default 0 (a !! idx y x).

(** Interior cells: everything but the outermost ring. *)
Definition interior (y x : Z) : bool :=
  (1 <=? y) && (y <=? HEIGHT - 2) && (1 <=? x) && (x <=? WIDTH - 2).

(** Border cells: the outermost ring of the grid. *)
Definition border (y x : Z) : bool :=
  in_array y x && negb (interior y x).

(** Row and column of the element at offset [p]. *)
Definition row_of (p : nat) : Z := Z.of_nat p / WIDTH.
Definition col_of (p : nat) : Z := Z.of_nat p mod WIDTH.

(** ** Reference definitions, following the specification *)

(** The eight immediate neighbours of [(y, x)]:
    NW, N, NE, W, E, SW, S, SE. *)
Definition neighbourhood (y x : Z) : list (Z * Z) :=
  [ (y - 1, x - 1); (y - 1, x); (y - 1, x + 1);
    (y, x - 1);                 (y, x + 1);
    (y + 1, x - 1); (y + 1, x); (y + 1, x + 1) ].

(** Number of neighbours of [(y, x)] whose value equals [ALIVE]. *)
Definition alive_neighbours (g : list Z) (y x : Z) : Z :=
  Z.of_nat (length (filter (λ p, cell g p.1 p.2 = ALIVE) (neighbourhood y x))).

(** The transition rule of the Game of Life on a cell value and the
    number of its live neighbours; a cell that is not [ALIVE] and is
    not born keeps its value. *)
Definition life_rule (current count : Z) : Z :=
  if bool_decide (current = ALIVE) then
    if bool_decide (count < 2 ∨ count > 3) then DEAD else ALIVE
  else if bool_decide (count = 3) then ALIVE
  else current.

(** The next generation as a function of the grid alone: the rule is
    applied to every interior cell with the neighbour count taken from
    [g] itself; every other cell is kept. *)
Definition next_generation (g : list Z) : list Z :=
  imap (λ p v, if interior (row_of p) (col_of p)
               then life_rule v (alive_neighbours g (row_of p) (col_of p))
               else v) g.

(** ** Pure images of the scans *)

(** Position of an interior cell in the row-by-row scan order. *)
Definition rank (y x : Z) : Z := (y - 1) * (WIDTH - 2) + (x - 1).

Definition interior_cells : Z := (HEIGHT - 2) * (WIDTH - 2).

(** Grid [a] after the first [k] interior cells of the scan have been
    given the value [f y x v], [v] being the cell's value in [a]. *)
Definition scan_upd (f : Z → Z → Z → Z) (k : Z) (a : list Z) : list Z :=
  imap (λ p v, if interior (row_of p) (col_of p)
                  && (rank (row_of p) (col_of p) <? k)
               then f (row_of p) (col_of p) v
               else v) a.

(** Grid [a] after a whole scan. *)
Definition scan_all (f : Z → Z → Z → Z) (a : list Z) : list Z :=
  imap (λ p v, if interior (row_of p) (col_of p)
               then f (row_of p) (col_of p) v
               else v) a.

(** What [count_field] leaves in [_field_count]. *)
Definition count_grid (g fc : list Z) : list Z :=
  scan_all (λ y x _, to_BYTE (alive_neighbours g y x)) fc.

(** What [calculate_field] leaves in [screen]. *)
Definition apply_counts (fc g : list Z) : list Z :=
  scan_all (λ y x v, life_rule v (cell fc y x)) g.

(** What [init_screen] leaves in [screen], [c0] draws having been made
    before. *)
Definition random_cell (src : nat → Z) (c0 : nat) (limit : Z) (y x : Z) : Z :=
  if src (c0 + Z.to_nat (rank y x))%nat <? limit then DEAD else ALIVE.

Definition random_grid (src : nat → Z) (c0 : nat) (limit : Z)
    (g : list Z) : list Z :=
  scan_all (λ y x _, random_cell src c0 limit y x) g.

(** State after one generation. *)
Definition generation_state (st : state) : state :=
  let fc := count_grid (screen st) (_field_count st) in
  set_screen (apply_counts fc (screen st)) (set_field_count fc st).

(** [n] generations, one after the other. *)
Fixpoint generations (n : nat) : M unit :=
  match n with
  | O => ret tt
  | S n' => generation ;;; generations n'
  end.

(** Three live cells in a row, centred on [(y, x)], on a dead grid. *)
Definition blinker_h (y x : Z) : list Z :=
  imap (λ p _, if (row_of p =? y)
                  && (x - 1 <=? col_of p) && (col_of p <=? x + 1)
               then ALIVE else DEAD) (replicate array_size DEAD).

(** Three live cells in a column, centred on [(y, x)], on a dead grid. *)
Definition blinker_v (y x : Z) : list Z :=
  imap (λ p _, if (col_of p =? x)
                  && (y - 1 <=? row_of p) && (row_of p <=? y + 1)
               then ALIVE else DEAD) (replicate array_size DEAD).

(** A state on a dead screen, used to run the program on examples. *)
Definition blank_state (n : N) (limit : Z) (src : nat → Z) : state :=
  mkState (replicate array_size DEAD) (replicate array_size 0) limit n src 0.

(** 1 for a live cell value, 0 for any other. *)
Definition alive_bit (v : Z) : Z := if decide (v = ALIVE) then 1 else 0.

(** A state to run the program on: a dead screen with a horizontal
    blinker in the middle and one cell holding the letter A (65),
    stale counts, and a random source that counts up from 0. *)
Definition demo_state : state :=
  mkState (<[idx 20 30 := 65]> (blinker_h 10 10)) (replicate array_size 7)
          3 2 (λ k, Z.of_nat k) 0.

(** A state whose screen holds a horizontal blinker and nothing else. *)
Definition blinker_state : state :=
  set_screen (blinker_h 10 10) (blank_state 2 3 (λ k, Z.of_nat k)).

(** ** The remaining functions of life.c *)

(** [ptr[offset] = v] with [ptr] the address of the first byte of the
    screen: an access by offset into the [HEIGHT * WIDTH] bytes. *)
Definition write_screen_ptr (offset v : Z) : M unit :=
  λ st, if (0 <=? offset) && (offset <? HEIGHT * WIDTH)
           && bool_decide (Z.to_nat offset < length (screen st))%nat
        then Some (tt, set_screen (<[Z.to_nat offset := v]> (screen st)) st)
        else None.

Definition clear_count : M unit :=
  for_lt 0 HEIGHT (λ y,
    for_lt 0 WIDTH (λ x,
      write_count y x 0)).

Definition fill_screen (c : Z) : M unit :=
  for_lt 0 (HEIGHT * WIDTH) (λ offset,
    write_screen_ptr offset c).


(** ** Further reference definitions *)

(** List [l] with its first [k] elements replaced by [v]. *)
Definition fill_upto {A} (k : nat) (v : A) (l : list A) : list A :=
  replicate k v ++ drop k l.

(** Every cell is [ALIVE] or [DEAD]. *)
Definition two_valued (g : list Z) : Prop :=
  Forall (λ v, v = ALIVE ∨ v = DEAD) g.

(** No cell is [ALIVE]. *)
Definition lifeless (g : list Z) : Prop :=
  Forall (λ v, v ≠ ALIVE) g.

(** A two by two block of live cells with top left corner [(y, x)], on
    a dead grid. *)
Definition block (y x : Z) : list Z :=
  imap (λ p _, if (y <=? row_of p) && (row_of p <=? y + 1)
                  && (x <=? col_of p) && (col_of p <=? x + 1)
               then ALIVE else DEAD) (replicate array_size DEAD).

(** Grid [g] seen in a mirror: left and right exchanged, and top and
    bottom exchanged. *)
Definition mirror_lr (g : list Z) : list Z :=
  imap (λ p _, cell g (row_of p) (WIDTH - 1 - col_of p)) g.

Definition mirror_tb (g : list Z) : list Z :=
  imap (λ p _, cell g (HEIGHT - 1 - row_of p) (col_of p)) g.

(** A dead screen but for one interior cell holding the letter A (65)
    and one border cell holding the letter B (66): no cell is alive. *)
Definition scribbled_state : state :=
  set_screen (<[idx 0 7 := 66]> (<[idx 3 4 := 65]> (replicate array_size DEAD)))
             (blank_state 0 0 (λ _, 0)).

(** * Properties *)

(** ** Subscripts and offsets *)

Lemma in_array_spec y x :
  in_array y x = true ↔ 0 ≤ y < HEIGHT ∧ 0 ≤ x < WIDTH.
Proof. unfold in_array. rewrite !andb_true_iff. lia. Qed.

Lemma interior_spec y x :
  interior y x = true ↔ 1 ≤ y ≤ HEIGHT - 2 ∧ 1 ≤ x ≤ WIDTH - 2.
Proof. unfold interior. rewrite !andb_true_iff. lia. Qed.

Lemma interior_in_array y x : interior y x = true → in_array y x = true.
Proof. rewrite interior_spec, in_array_spec. unfold HEIGHT, WIDTH. lia. Qed.

Lemma idx_lt y x : in_array y x = true → (idx y x < array_size)%nat.
Proof.
  rewrite in_array_spec. unfold idx, array_size, HEIGHT, WIDTH. lia.
Qed.

Lemma row_of_idx y x : in_array y x = true → row_of (idx y x) = y.
Proof.
  rewrite in_array_spec. unfold row_of, idx, HEIGHT, WIDTH. intros H.
  rewrite Z2Nat.id by lia. symmetry.
  apply (Z.div_unique _ _ y x); lia.
Qed.

Lemma col_of_idx y x : in_array y x = true → col_of (idx y x) = x.
Proof.
  rewrite in_array_spec. unfold col_of, idx, HEIGHT, WIDTH. intros H.
  rewrite Z2Nat.id by lia. symmetry.
  apply (Z.mod_unique _ _ y x); lia.
Qed.

Lemma idx_row_col p :
  (p < array_size)%nat →
  in_array (row_of p) (col_of p) = true ∧ idx (row_of p) (col_of p) = p.
Proof.
  unfold array_size, row_of, col_of, idx, HEIGHT, WIDTH. intros H.
  pose proof (Z.div_mod (Z.of_nat p) 40 ltac:(lia)) as E.
  pose proof (Z.mod_pos_bound (Z.of_nat p) 40 ltac:(lia)) as B.
  split; [apply in_array_spec; unfold HEIGHT, WIDTH | lia].
  split; [|lia]. split; [apply Z.div_pos; lia|].
  apply Z.div_lt_upper_bound; lia.
Qed.

Lemma idx_inj y x y' x' :
  in_array y x = true → in_array y' x' = true →
  idx y x = idx y' x' → y = y' ∧ x = x'.
Proof.
  rewrite !in_array_spec. unfold idx, HEIGHT, WIDTH. lia.
Qed.

Lemma rank_inj y x y' x' :
  interior y x = true → interior y' x' = true →
  rank y x = rank y' x' → y = y' ∧ x = x'.
Proof.
  rewrite !interior_spec. unfold rank, HEIGHT, WIDTH. lia.
Qed.

(** ** Loops *)

Lemma bind_Some {A B} (m : M A) (k : A → M B) st a st' :
  m st = Some (a, st') → bind m k st = k a st'.
Proof. unfold bind. intros ->. reflexivity. Qed.

Lemma ret_run {A} (a : A) st : ret a st = Some (a, st).
Proof. reflexivity. Qed.

Lemma for_lt_done lo hi body st :
  hi ≤ lo → for_lt lo hi body st = Some (tt, st).
Proof.
  intros H. unfold for_lt, seqZ.
  replace (Z.to_nat (hi - lo)) with O by lia. reflexivity.
Qed.

Lemma for_lt_unroll lo hi body st :
  lo < hi →
  for_lt lo hi body st = bind (body lo) (λ _, for_lt (lo + 1) hi body) st.
Proof.
  intros H. unfold for_lt.
  rewrite (seqZ_cons lo (hi - lo)) by lia.
  replace (Z.pred (hi - lo)) with (hi - (lo + 1)) by lia.
  replace (Z.succ lo) with (lo + 1) by lia.
  simpl. unfold bind. destruct (body lo st) as [[[] s]|]; reflexivity.
Qed.

(** A loop whose body takes the state [F i] to [F (i + 1)] takes
    [F lo] to [F hi]. *)
Lemma for_lt_run (F : Z → state) lo hi body st :
  lo ≤ hi → st = F lo →
  (∀ i, lo ≤ i < hi → body i (F i) = Some (tt, F (i + 1))) →
  for_lt lo hi body st = Some (tt, F hi).
Proof.
  intros Hle -> Hbody.
  remember (Z.to_nat (hi - lo)) as n eqn:En.
  revert lo Hle Hbody En. induction n as [|n IH]; intros lo Hle Hbody En.
  - replace hi with lo by lia. apply for_lt_done. lia.
  - rewrite for_lt_unroll by lia.
    rewrite (bind_Some _ _ _ tt (F (lo + 1))) by (apply Hbody; lia).
    apply IH; [lia | | lia]. intros i Hi. apply Hbody. lia.
Qed.

(** The row-by-row scan of the interior: a body that takes the state
    after [rank y x] cells to the state after one more takes [F 0] to
    the state after all of them. *)
Lemma interior_scan_run (F : Z → state) (body : Z → Z → M unit) st :
  st = F 0 →
  (∀ y x, interior y x = true →
          body y x (F (rank y x)) = Some (tt, F (rank y x + 1))) →
  for_lt 1 (HEIGHT - 1) (λ y, for_lt 1 (WIDTH - 1) (λ x, body y x)) st
  = Some (tt, F interior_cells).
Proof.
  intros -> Hbody.
  replace (F interior_cells) with (F (rank (HEIGHT - 1) 1)) by reflexivity.
  apply (for_lt_run (λ y, F (rank y 1))); [unfold HEIGHT; lia | reflexivity |].
  intros y Hy.
  replace (F (rank (y + 1) 1)) with (F (rank y (WIDTH - 1)))
    by (f_equal; unfold rank, WIDTH; lia).
  apply (for_lt_run (λ x, F (rank y x))); [unfold WIDTH; lia | reflexivity |].
  intros x Hx.
  replace (rank y (x + 1)) with (rank y x + 1) by (unfold rank; lia).
  apply Hbody. apply interior_spec. unfold HEIGHT, WIDTH in *. lia.
Qed.

(** A loop whose body ignores its index runs the body once per index. *)
Lemma for_lt_const n (body : M unit) st :
  for_lt 0 (Z.of_nat n) (λ _, body) st
  = (fix go (k : nat) : M unit :=
       match k with O => ret tt | S k' => bind body (λ _, go k') end) n st.
Proof.
  assert (G : ∀ lo, for_lt lo (lo + Z.of_nat n) (λ _, body) st
    = (fix go (k : nat) : M unit :=
       match k with O => ret tt | S k' => bind body (λ _, go k') end) n st).
  { revert st. induction n as [|n IH]; intros st lo.
    - apply for_lt_done. lia.
    - rewrite for_lt_unroll by lia. unfold bind at 1 2.
      destruct (body st) as [[[] s]|]; [|reflexivity].
      replace (lo + Z.of_nat (S n)) with ((lo + 1) + Z.of_nat n) by lia.
      apply IH. }
  apply (G 0).
Qed.

(** A loop leaves alone what its body leaves alone. *)
Lemma forM_frame {A B} (proj : state → B) (l : list Z)
    (body : Z → A → M A) a st a' st' :
  (∀ i b s b' s', body i b s = Some (b', s') → proj s' = proj s) →
  forM l body a st = Some (a', st') → proj st' = proj st.
Proof.
  intros Hbody. revert a st.
  induction l as [|i l IH]; intros a st Hrun; simpl in Hrun.
  - by injection Hrun as _ <-.
  - unfold bind in Hrun. destruct (body i a st) as [[b s]|] eqn:E; [|done].
    rewrite (IH _ _ Hrun). by apply (Hbody i a st b).
Qed.

(** ** Cells of a scanned grid *)

Lemma cell_lookup a y x :
  in_array y x = true → length a = array_size →
  a !! idx y x = Some (cell a y x).
Proof.
  intros Hin Hlen. unfold cell.
  destruct (lookup_lt_is_Some_2 a (idx y x)) as [v Hv];
    [rewrite Hlen; by apply idx_lt | by rewrite Hv].
Qed.

Lemma load_cell a y x :
  in_array y x = true → length a = array_size →
  load a y x = Some (cell a y x).
Proof. intros Hin Hlen. unfold load. rewrite Hin. by apply cell_lookup. Qed.

Lemma store_insert a y x v :
  in_array y x = true → length a = array_size →
  store a y x v = Some (<[idx y x := v]> a).
Proof.
  intros Hin Hlen. unfold store. rewrite Hin, bool_decide_true; [done|].
  rewrite Hlen. by apply idx_lt.
Qed.

(** Two grids of the declared size with the same cells are equal. *)
Lemma grid_eq (a b : list Z) :
  length a = array_size → length b = array_size →
  (∀ y x, in_array y x = true → cell a y x = cell b y x) → a = b.
Proof.
  intros Ha Hb Hcell. apply list_eq. intros p.
  destruct (decide (p < array_size)%nat) as [Hp|Hp].
  - destruct (idx_row_col p Hp) as [Hin Hidx].
    specialize (Hcell _ _ Hin).
    rewrite <- Hidx, !cell_lookup by done. by rewrite Hcell.
  - rewrite !lookup_ge_None_2 by lia. done.
Qed.

Lemma length_scan_upd f k a : length (scan_upd f k a) = length a.
Proof. unfold scan_upd. apply length_imap. Qed.

Lemma length_scan_all f a : length (scan_all f a) = length a.
Proof. unfold scan_all. apply length_imap. Qed.

Lemma cell_scan_upd f k a y x :
  in_array y x = true → length a = array_size →
  cell (scan_upd f k a) y x
  = if interior y x && (rank y x <? k) then f y x (cell a y x)
    else cell a y x.
Proof.
  intros Hin Hlen. unfold cell at 1, scan_upd.
  rewrite list_lookup_imap, cell_lookup by done. simpl.
  by rewrite row_of_idx, col_of_idx.
Qed.

Lemma cell_scan_all f a y x :
  in_array y x = true → length a = array_size →
  cell (scan_all f a) y x
  = if interior y x then f y x (cell a y x) else cell a y x.
Proof.
  intros Hin Hlen. unfold cell at 1, scan_all.
  rewrite list_lookup_imap, cell_lookup by done. simpl.
  by rewrite row_of_idx, col_of_idx.
Qed.

Lemma cell_insert a y x v y' x' :
  in_array y x = true → in_array y' x' = true → length a = array_size →
  cell (<[idx y x := v]> a) y' x'
  = if bool_decide (y' = y ∧ x' = x) then v else cell a y' x'.
Proof.
  intros Hin Hin' Hlen. unfold cell at 1. case_bool_decide as E.
  - destruct E as [-> ->].
    rewrite list_lookup_insert_eq; [done | rewrite Hlen; by apply idx_lt].
  - rewrite list_lookup_insert_ne, cell_lookup; [done..|].
    intros Hi. destruct (idx_inj _ _ _ _ Hin' Hin (eq_sym Hi)). naive_solver.
Qed.

Lemma scan_upd_0 f a : length a = array_size → scan_upd f 0 a = a.
Proof.
  intros Hlen. apply grid_eq; [by rewrite length_scan_upd | done |].
  intros y x Hin. rewrite cell_scan_upd by done.
  destruct (interior y x) eqn:Hi; [|done]. simpl.
  apply interior_spec in Hi.
  destruct (Z.ltb_spec (rank y x) 0) as [Hr|]; [|done].
  unfold rank, HEIGHT, WIDTH in *. lia.
Qed.

Lemma scan_upd_all f a :
  length a = array_size → scan_upd f interior_cells a = scan_all f a.
Proof.
  intros Hlen.
  apply grid_eq; [by rewrite length_scan_upd | by rewrite length_scan_all |].
  intros y x Hin. rewrite cell_scan_upd, cell_scan_all by done.
  destruct (interior y x) eqn:Hi; [|done]. simpl.
  apply interior_spec in Hi.
  destruct (Z.ltb_spec (rank y x) interior_cells) as [|Hr]; [done|].
  unfold rank, interior_cells, HEIGHT, WIDTH in *. lia.
Qed.

(** The cell the scan has reached still has its old value. *)
Lemma cell_scan_upd_here f a y x :
  interior y x = true → length a = array_size →
  cell (scan_upd f (rank y x) a) y x = cell a y x.
Proof.
  intros Hi Hlen. rewrite cell_scan_upd by auto using interior_in_array.
  by rewrite Z.ltb_irrefl, andb_false_r.
Qed.

(** Writing the new value of the cell the scan has reached. *)
Lemma scan_upd_step f a y x :
  interior y x = true → length a = array_size →
  <[idx y x := f y x (cell a y x)]> (scan_upd f (rank y x) a)
  = scan_upd f (rank y x + 1) a.
Proof.
  intros Hi Hlen. pose proof (interior_in_array _ _ Hi) as Hin.
  apply grid_eq; [by rewrite length_insert, length_scan_upd
                 | by rewrite length_scan_upd |].
  intros y' x' Hin'.
  rewrite cell_insert by (done || by rewrite length_scan_upd).
  rewrite !cell_scan_upd by done.
  case_bool_decide as E.
  - destruct E as [-> ->]. rewrite Hi. simpl.
    by destruct (Z.ltb_spec (rank y x) (rank y x + 1)); [|lia].
  - destruct (interior y' x') eqn:Hi'; [|done]. simpl.
    destruct (Z.ltb_spec (rank y' x') (rank y x)),
             (Z.ltb_spec (rank y' x') (rank y x + 1)); try done; try lia.
    assert (rank y' x' = rank y x) as Hr by lia.
    destruct (rank_inj _ _ _ _ Hi' Hi Hr). naive_solver.
Qed.

(** Leaving the cell the scan has reached alone, when its new value is
    its old one. *)
Lemma scan_upd_skip f a y x :
  interior y x = true → length a = array_size →
  f y x (cell a y x) = cell a y x →
  scan_upd f (rank y x) a = scan_upd f (rank y x + 1) a.
Proof.
  intros Hi Hlen Hf. rewrite <- scan_upd_step by done.
  symmetry. apply list_insert_id.
  rewrite cell_lookup, cell_scan_upd_here, Hf;
    auto using interior_in_array. by rewrite length_scan_upd.
Qed.

(** ** Well-formed states *)

Lemma wf_set_screen s st :
  length s = array_size → wf st → wf (set_screen s st).
Proof. intros Hs [_ Hc]. by split. Qed.

Lemma wf_set_field_count c st :
  length c = array_size → wf st → wf (set_field_count c st).
Proof. intros Hc [Hs _]. by split. Qed.

Lemma read_screen_run y x st :
  in_array y x = true → length (screen st) = array_size →
  read_screen y x st = Some (cell (screen st) y x, st).
Proof. intros Hin Hlen. unfold read_screen. by rewrite load_cell. Qed.

Lemma read_count_run y x st :
  in_array y x = true → length (_field_count st) = array_size →
  read_count y x st = Some (cell (_field_count st) y x, st).
Proof. intros Hin Hlen. unfold read_count. by rewrite load_cell. Qed.

Lemma write_screen_run y x v st :
  in_array y x = true → length (screen st) = array_size →
  write_screen y x v st
  = Some (tt, set_screen (<[idx y x := v]> (screen st)) st).
Proof. intros Hin Hlen. unfold write_screen. by rewrite store_insert. Qed.

Lemma write_count_run y x v st :
  in_array y x = true → length (_field_count st) = array_size →
  write_count y x v st
  = Some (tt, set_field_count (<[idx y x := v]> (_field_count st)) st).
Proof. intros Hin Hlen. unfold write_count. by rewrite store_insert. Qed.

(** ** count_neighbours *)

Lemma alive_bit_range v : 0 ≤ alive_bit v ≤ 1.
Proof. unfold alive_bit. case_decide; lia. Qed.

Lemma count_filter_bits {A} (P : A → Prop) `{∀ a, Decision (P a)} (l : list A) :
  Z.of_nat (length (filter P l))
  = foldr (λ a n, (if decide (P a) then 1 else 0) + n) 0 l.
Proof.
  induction l as [|a l IH]; [done|].
  rewrite filter_cons. simpl. rewrite <- IH.
  case_decide; simpl; lia.
Qed.

Lemma alive_neighbours_bits g y x :
  alive_neighbours g y x
  = alive_bit (cell g (y - 1) (x - 1)) + alive_bit (cell g (y - 1) x)
    + alive_bit (cell g (y - 1) (x + 1))
    + alive_bit (cell g y (x - 1)) + alive_bit (cell g y (x + 1))
    + alive_bit (cell g (y + 1) (x - 1)) + alive_bit (cell g (y + 1) x)
    + alive_bit (cell g (y + 1) (x + 1)).
Proof.
  unfold alive_neighbours. rewrite count_filter_bits. simpl.
  unfold alive_bit. lia.
Qed.

Lemma alive_neighbours_range g y x : 0 ≤ alive_neighbours g y x ≤ 8.
Proof.
  unfold alive_neighbours.
  pose proof (length_filter (λ p : Z * Z, cell g p.1 p.2 = ALIVE)
                            (neighbourhood y x)) as H.
  simpl in H. lia.
Qed.

Lemma to_BYTE_alive_neighbours g y x :
  to_BYTE (alive_neighbours g y x) = alive_neighbours g y x.
Proof.
  unfold to_BYTE. pose proof (alive_neighbours_range g y x).
  apply Z.mod_small. lia.
Qed.

Lemma count_bit_run c count st :
  (if c =? ALIVE then ret (count + 1) else ret count) st
  = Some (count + alive_bit c, st).
Proof.
  unfold alive_bit, ret.
  destruct (Z.eqb_spec c ALIVE); case_decide; try done; by rewrite ?Z.add_0_r.
Qed.

(** On an interior cell [count_neighbours] reads its eight neighbours,
    all inside the array, and leaves the state alone. *)
Lemma count_neighbours_run y x st :
  length (screen st) = array_size → interior y x = true →
  count_neighbours y x st = Some (alive_neighbours (screen st) y x, st).
Proof.
  intros Hlen Hi. apply interior_spec in Hi. unfold HEIGHT, WIDTH in Hi.
  unfold count_neighbours, for_le.
  change (seqZ (-1) (1 + 1 - -1)) with [-1; 0; 1].
  cbn [forM]. change (0 =? 0) with true. change (-1 =? 0) with false.
  change (1 =? 0) with false. cbn [andb].
  unfold bind.
  repeat (rewrite read_screen_run
            by (auto; apply in_array_spec; unfold HEIGHT, WIDTH; lia);
          rewrite count_bit_run; rewrite ?ret_run; cbv beta iota).
  rewrite !Z.add_0_r, alive_neighbours_bits.
  do 2 f_equal.
Qed.

(** ** count_field *)

Lemma count_field_run st :
  wf st →
  count_field st
  = Some (tt, set_field_count
                (count_grid (screen st) (_field_count st)) st).
Proof.
  intros [Hs Hc]. unfold count_field, count_grid.
  set (f := λ y x (_ : Z), to_BYTE (alive_neighbours (screen st) y x)).
  rewrite <- scan_upd_all by done.
  apply (interior_scan_run
           (λ k, set_field_count (scan_upd f k (_field_count st)) st)).
  - rewrite scan_upd_0 by done. by destruct st.
  - intros y x Hi.
    unfold bind. rewrite count_neighbours_run by done.
    rewrite write_count_run
      by (auto using interior_in_array; simpl; by rewrite length_scan_upd).
    simpl. do 2 f_equal. unfold set_field_count. simpl. f_equal.
    by apply (scan_upd_step f).
Qed.

(** ** calculate_field *)

(** The branches of [calculate_field] on a cell value and its count. *)
Lemma life_rule_cases v c :
  life_rule v c
  = if v =? ALIVE then (if (c <? 2) || (c >? 3) then DEAD else ALIVE)
    else if c =? 3 then ALIVE else v.
Proof.
  unfold life_rule. rewrite Z.gtb_ltb.
  destruct (Z.eqb_spec v ALIVE), (Z.ltb_spec c 2), (Z.eqb_spec c 3),
           (Z.ltb_spec 3 c);
    repeat case_bool_decide; simpl; try done; lia.
Qed.

Lemma calculate_field_run st :
  wf st →
  calculate_field st
  = Some (tt, set_screen (apply_counts (_field_count st) (screen st)) st).
Proof.
  intros [Hs Hc]. unfold calculate_field, apply_counts.
  set (f := λ y x v, life_rule v (cell (_field_count st) y x)).
  rewrite <- scan_upd_all by done.
  apply (interior_scan_run (λ k, set_screen (scan_upd f k (screen st)) st)).
  - rewrite scan_upd_0 by done. by destruct st.
  - intros y x Hi. pose proof (interior_in_array _ _ Hi) as Hin.
    set (s := set_screen (scan_upd f (rank y x) (screen st)) st).
    assert (length (screen s) = array_size) as Hls
      by (simpl; by rewrite length_scan_upd).
    rewrite (bind_Some _ _ _ (cell (_field_count st) y x) s)
      by exact (read_count_run y x s Hin Hc).
    rewrite (bind_Some _ _ _ (cell (screen st) y x) s)
      by (rewrite (read_screen_run y x s) by done; unfold s; simpl;
          by rewrite cell_scan_upd_here).
    assert (∀ v, f y x (cell (screen st) y x) = v →
                 write_screen y x v s
                 = Some (tt, set_screen
                               (scan_upd f (rank y x + 1) (screen st)) st))
      as Hwrite.
    { intros v <-. rewrite write_screen_run by done.
      simpl. do 2 f_equal. unfold set_screen. simpl. f_equal.
      by apply scan_upd_step. }
    assert (f y x (cell (screen st) y x) = cell (screen st) y x →
            ret tt s
            = Some (tt, set_screen
                          (scan_upd f (rank y x + 1) (screen st)) st))
      as Hskip.
    { intros E. unfold ret, s. do 3 f_equal. by apply scan_upd_skip. }
    unfold f in Hwrite, Hskip. rewrite life_rule_cases in Hwrite, Hskip.
    destruct (Z.eqb_spec (cell (screen st) y x) ALIVE) as [Ea|Ea].
    + destruct ((cell (_field_count st) y x <? 2)
                || (cell (_field_count st) y x >? 3)); auto.
    + destruct (cell (_field_count st) y x =? 3); auto.
Qed.

(** ** init_screen *)

Lemma init_screen_run st :
  wf st →
  init_screen st
  = Some (tt, set_screen
                (random_grid (rand_src st) (rand_calls st) (_limit st)
                             (screen st))
                (set_rand_calls
                   (rand_calls st + Z.to_nat interior_cells)%nat st)).
Proof.
  intros [Hs Hc]. unfold init_screen, random_grid.
  set (f := λ y x (_ : Z),
              random_cell (rand_src st) (rand_calls st) (_limit st) y x).
  rewrite <- scan_upd_all by done.
  apply (interior_scan_run
           (λ k, set_screen (scan_upd f k (screen st))
                   (set_rand_calls (rand_calls st + Z.to_nat k)%nat st))).
  - rewrite scan_upd_0 by done. destruct st. unfold set_screen,
      set_rand_calls. simpl. f_equal. lia.
  - intros y x Hi. pose proof (interior_in_array _ _ Hi) as Hin.
    unfold bind, rand, get_limit. simpl.
    rewrite write_screen_run by (done || simpl; by rewrite length_scan_upd).
    do 2 f_equal. unfold set_screen, set_rand_calls. simpl.
    rewrite <- (scan_upd_step f) by done.
    apply interior_spec in Hi. unfold HEIGHT, WIDTH in Hi.
    f_equal. rewrite Z2Nat.inj_add by (unfold rank, WIDTH; lia). simpl. lia.
Qed.

(** ** One generation, and many *)

Lemma wf_generation_state st : wf st → wf (generation_state st).
Proof.
  intros [Hs Hc]. unfold generation_state, apply_counts, count_grid.
  split; simpl; by rewrite length_scan_all.
Qed.

Lemma generation_run st :
  wf st → generation st = Some (tt, generation_state st).
Proof.
  intros Hwf. unfold generation.
  rewrite (bind_Some _ _ _ _ _ (count_field_run st Hwf)).
  rewrite calculate_field_run; [done|].
  destruct Hwf. apply wf_set_field_count; [|done].
  unfold count_grid. by rewrite length_scan_all.
Qed.

Lemma wf_iter_generation_state n st :
  wf st → wf (Nat.iter n generation_state st).
Proof.
  intros Hwf. induction n as [|n IH]; [done|].
  simpl. by apply wf_generation_state.
Qed.

Lemma generations_run n st :
  wf st → generations n st = Some (tt, Nat.iter n generation_state st).
Proof.
  revert st. induction n as [|n IH]; intros st Hwf; [done|].
  cbn [generations].
  rewrite (bind_Some _ _ _ _ _ (generation_run st Hwf)).
  rewrite IH by (by apply wf_generation_state).
  by rewrite <- Nat.iter_succ_r.
Qed.

(** The body of the loop of [calculate] never writes [_iterations], on
    any state: reading the bound of the loop once, as [calculate] does
    here, is reading it before every iteration. *)
Lemma generation_keeps_iterations st st' :
  generation st = Some (tt, st') → _iterations st' = _iterations st.
Proof.
  assert (∀ y x v s r s', write_screen y x v s = Some (r, s') →
                          _iterations s' = _iterations s) as Hws.
  { intros y x v s r s'. unfold write_screen.
    destruct (store _ _ _ _); [|done]. by intros [= _ <-]. }
  assert (∀ y x v s r s', write_count y x v s = Some (r, s') →
                          _iterations s' = _iterations s) as Hwc.
  { intros y x v s r s'. unfold write_count.
    destruct (store _ _ _ _); [|done]. by intros [= _ <-]. }
  assert (∀ y x s r s', read_screen y x s = Some (r, s') → s' = s) as Hrs.
  { intros y x s r s'. unfold read_screen.
    destruct (load _ _ _); [|done]. by intros [= _ <-]. }
  assert (∀ y x s r s', read_count y x s = Some (r, s') → s' = s) as Hrc.
  { intros y x s r s'. unfold read_count.
    destruct (load _ _ _); [|done]. by intros [= _ <-]. }
  assert (∀ y x s r s', count_neighbours y x s = Some (r, s') →
                        _iterations s' = _iterations s) as Hcn.
  { intros y x s r s'. unfold count_neighbours, for_le.
    apply forM_frame. intros dy c s1 c1 s1'. apply forM_frame.
    intros dx b s2 b2 s2'. destruct ((dy =? 0) && (dx =? 0)).
    - by intros [= _ <-].
    - unfold bind. destruct (read_screen _ _ s2) as [[v s3]|] eqn:E; [|done].
      apply Hrs in E as ->. destruct (v =? ALIVE); by intros [= _ <-]. }
  unfold generation, bind.
  destruct (count_field st) as [[[] s1]|] eqn:E1; [|done]. intros E2.
  transitivity (_iterations s1).
  - revert E2. unfold calculate_field, for_lt. apply forM_frame.
    intros y [] s [] s'. apply forM_frame. intros x [] s2 [] s2'.
    unfold bind. destruct (read_count y x s2) as [[c s3]|] eqn:Ec; [|done].
    apply Hrc in Ec as ->.
    destruct (read_screen y x s2) as [[v s3]|] eqn:Ev; [|done].
    apply Hrs in Ev as ->.
    destruct (v =? ALIVE), ((c <? 2) || (c >? 3)), (c =? 3);
      first [apply Hws | by intros [= <-]].
  - revert E1. unfold count_field, for_lt. apply forM_frame.
    intros y [] s [] s'. apply forM_frame. intros x [] s2 [] s2'.
    unfold bind. destruct (count_neighbours y x s2) as [[c s3]|] eqn:Ec; [|done].
    intros Hw. apply Hwc in Hw. apply Hcn in Ec. congruence.
Qed.

(** [calculate] runs the body of its loop once per iteration. *)
Lemma calculate_generations st :
  calculate st = generations (N.to_nat (_iterations st)) st.
Proof.
  unfold calculate, bind, get_iterations.
  rewrite <- (N_nat_Z (_iterations st)), for_lt_const.
  generalize (N.to_nat (_iterations st)) as n. intros n. revert st.
  induction n as [|n IH]; intros st; [done|].
  cbn [generations]. unfold bind at 1 3.
  destruct (generation st) as [[[] s]|]; [apply IH | done].
Qed.

(** ** The state after one generation *)

Lemma interior_true y x :
  1 ≤ y ≤ HEIGHT - 2 → 1 ≤ x ≤ WIDTH - 2 → interior y x = true.
Proof. intros. by apply interior_spec. Qed.

Lemma cell_count_grid g fc y x :
  interior y x = true → length fc = array_size →
  cell (count_grid g fc) y x = alive_neighbours g y x.
Proof.
  intros Hi Hlen. unfold count_grid.
  rewrite cell_scan_all, Hi by auto using interior_in_array.
  apply to_BYTE_alive_neighbours.
Qed.

Lemma cell_next_generation g y x :
  in_array y x = true → length g = array_size →
  cell (next_generation g) y x
  = if interior y x
    then life_rule (cell g y x) (alive_neighbours g y x)
    else cell g y x.
Proof.
  intros Hin Hlen.
  apply (cell_scan_all (λ y x v, life_rule v (alive_neighbours g y x))); done.
Qed.

Lemma length_next_generation g : length (next_generation g) = length g.
Proof. unfold next_generation. apply length_imap. Qed.

Lemma apply_counts_fresh g fc :
  length g = array_size → length fc = array_size →
  apply_counts (count_grid g fc) g = next_generation g.
Proof.
  intros Hg Hfc. unfold apply_counts.
  apply grid_eq; [by rewrite length_scan_all
                 | by rewrite length_next_generation |].
  intros y x Hin. rewrite cell_scan_all, cell_next_generation by done.
  destruct (interior y x) eqn:Hi; [|done].
  by rewrite cell_count_grid.
Qed.

Lemma screen_generation_state st :
  wf st → screen (generation_state st) = next_generation (screen st).
Proof. intros [Hs Hc]. simpl. by apply apply_counts_fresh. Qed.

Lemma screen_iter_generation_state n st :
  wf st →
  screen (Nat.iter n generation_state st)
  = Nat.iter n next_generation (screen st).
Proof.
  intros Hwf. induction n as [|n IH]; [done|].
  simpl Nat.iter. rewrite screen_generation_state, IH;
    auto using wf_iter_generation_state.
Qed.

Lemma wf_demo_state : wf demo_state.
Proof. split; reflexivity. Qed.

(** * The claims *)

(** C3.  On every interior cell [(y, x)], [count_neighbours] returns
    the number of the eight immediate neighbours of the cell whose
    value equals [ALIVE]; the result lies between 0 and 8, every read
    stays inside the array, and the state, hence the grid, is the one
    the call started from. *)
Theorem count_neighbours_correct (st : state) (y x : Z) :
  length (screen st) = array_size →
  1 ≤ y ≤ HEIGHT - 2 → 1 ≤ x ≤ WIDTH - 2 →
  ∃ n : Z,
    count_neighbours y x st = Some (n, st)
    ∧ n = Z.of_nat (length (filter (λ p, cell (screen st) p.1 p.2 = ALIVE)
                                   (neighbourhood y x)))
    ∧ 0 ≤ n ≤ 8.
Proof.
  intros Hlen Hy Hx. exists (alive_neighbours (screen st) y x).
  split; [|split].
  - apply count_neighbours_run; [done | by apply interior_true].
  - reflexivity.
  - apply alive_neighbours_range.
Qed.

Lemma count_neighbours_correct_witness :
  length (screen demo_state) = array_size
  ∧ 1 ≤ 9 ≤ HEIGHT - 2 ∧ 1 ≤ 10 ≤ WIDTH - 2
  ∧ ∃ n : Z,
      count_neighbours 9 10 demo_state = Some (n, demo_state)
      ∧ n = Z.of_nat (length (filter
                 (λ p, cell (screen demo_state) p.1 p.2 = ALIVE)
                 (neighbourhood 9 10)))
      ∧ 0 ≤ n ≤ 8.
Proof.
  split; [reflexivity|]. split; [unfold HEIGHT; lia|].
  split; [unfold WIDTH; lia|].
  apply (count_neighbours_correct demo_state 9 10);
    [reflexivity | unfold HEIGHT; lia | unfold WIDTH; lia].
Defined.

(** C1.  One generation ([count_field] then [calculate_field]) succeeds
    on every well-formed state, and on every interior cell the new
    value follows the rule of the Game of Life from the cell's previous
    value and the number [count] of its live neighbours in the previous
    grid, which is also what the step leaves in [_field_count]: a live
    cell with fewer than 2 or more than 3 live neighbours dies, a live
    cell with 2 or 3 stays alive, a dead cell with exactly 3 is born,
    and any other dead cell stays dead. *)
Theorem generation_follows_rule (st : state) (y x : Z) :
  wf st → 1 ≤ y ≤ HEIGHT - 2 → 1 ≤ x ≤ WIDTH - 2 →
  ∃ (st' : state) (count : Z),
    generation st = Some (tt, st')
    ∧ count_neighbours y x st = Some (count, st)
    ∧ cell (_field_count st') y x = count
    ∧ (cell (screen st) y x = ALIVE → count < 2 ∨ count > 3 →
       cell (screen st') y x = DEAD)
    ∧ (cell (screen st) y x = ALIVE → count = 2 ∨ count = 3 →
       cell (screen st') y x = ALIVE)
    ∧ (cell (screen st) y x = DEAD → count = 3 →
       cell (screen st') y x = ALIVE)
    ∧ (cell (screen st) y x = DEAD → count ≠ 3 →
       cell (screen st') y x = DEAD).
Proof.
  intros Hwf Hy Hx. pose proof (interior_true y x Hy Hx) as Hi.
  pose proof (interior_in_array _ _ Hi) as Hin. pose proof Hwf as [Hs Hc].
  exists (generation_state st), (alive_neighbours (screen st) y x).
  split; [by apply generation_run|].
  split; [by apply count_neighbours_run|].
  split; [simpl; by apply cell_count_grid|].
  rewrite screen_generation_state, cell_next_generation, Hi by done.
  unfold life_rule, ALIVE, DEAD.
  repeat split; intros Hcur Hcnt; rewrite Hcur;
    repeat case_bool_decide; try done; lia.
Qed.

Lemma generation_follows_rule_witness :
  wf demo_state ∧ 1 ≤ 9 ≤ HEIGHT - 2 ∧ 1 ≤ 10 ≤ WIDTH - 2
  ∧ ∃ (st' : state) (count : Z),
      generation demo_state = Some (tt, st')
      ∧ count_neighbours 9 10 demo_state = Some (count, demo_state)
      ∧ cell (_field_count st') 9 10 = count
      ∧ (cell (screen demo_state) 9 10 = ALIVE → count < 2 ∨ count > 3 →
         cell (screen st') 9 10 = DEAD)
      ∧ (cell (screen demo_state) 9 10 = ALIVE → count = 2 ∨ count = 3 →
         cell (screen st') 9 10 = ALIVE)
      ∧ (cell (screen demo_state) 9 10 = DEAD → count = 3 →
         cell (screen st') 9 10 = ALIVE)
      ∧ (cell (screen demo_state) 9 10 = DEAD → count ≠ 3 →
         cell (screen st') 9 10 = DEAD).
Proof.
  split; [exact wf_demo_state|]. split; [unfold HEIGHT; lia|].
  split; [unfold WIDTH; lia|].
  apply (generation_follows_rule demo_state 9 10);
    [exact wf_demo_state | unfold HEIGHT; lia | unfold WIDTH; lia].
Defined.

(** C2.  One generation equals the reference function
    [next_generation], which is computed from the grid at the start of
    the step alone: whatever counts an earlier generation left in
    [_field_count], the step succeeds, the new grid is
    [next_generation] of the old one, and the count the step used for
    each interior cell is the cell's number of live neighbours in the
    old grid. *)
Theorem generation_refines_next_generation (st : state) :
  wf st →
  ∃ st' : state,
    generation st = Some (tt, st')
    ∧ screen st' = next_generation (screen st)
    ∧ (∀ y x, 1 ≤ y ≤ HEIGHT - 2 → 1 ≤ x ≤ WIDTH - 2 →
              cell (_field_count st') y x
              = alive_neighbours (screen st) y x)
    ∧ (∀ stale : list Z, length stale = array_size →
         ∃ st2 : state,
           generation (set_field_count stale st) = Some (tt, st2)
           ∧ screen st2 = screen st').
Proof.
  intros Hwf. pose proof Hwf as [Hs Hc]. exists (generation_state st).
  split; [by apply generation_run|].
  split; [by apply screen_generation_state|].
  split.
  - intros y x Hy Hx. simpl. apply cell_count_grid; [|done].
    by apply interior_true.
  - intros stale Hstale.
    assert (wf (set_field_count stale st)) as Hwf2
      by (by apply wf_set_field_count).
    exists (generation_state (set_field_count stale st)).
    split; [by apply generation_run|].
    by rewrite !screen_generation_state.
Qed.

Lemma generation_refines_next_generation_witness :
  wf demo_state
  ∧ ∃ st' : state,
      generation demo_state = Some (tt, st')
      ∧ screen st' = next_generation (screen demo_state)
      ∧ (∀ y x, 1 ≤ y ≤ HEIGHT - 2 → 1 ≤ x ≤ WIDTH - 2 →
                cell (_field_count st') y x
                = alive_neighbours (screen demo_state) y x)
      ∧ (∀ stale : list Z, length stale = array_size →
           ∃ st2 : state,
             generation (set_field_count stale demo_state) = Some (tt, st2)
             ∧ screen st2 = screen st').
Proof.
  split; [exact wf_demo_state|].
  apply (generation_refines_next_generation demo_state).
  exact wf_demo_state.
Defined.

(** ** The driver *)

Lemma calculate_run st :
  wf st →
  calculate st
  = Some (tt, Nat.iter (N.to_nat (_iterations st)) generation_state st).
Proof. intros Hwf. rewrite calculate_generations. by apply generations_run. Qed.

Lemma generation_state_set_iterations k st :
  generation_state (set_iterations k st)
  = set_iterations k (generation_state st).
Proof. reflexivity. Qed.

Lemma iter_generation_state_set_iterations n k st :
  Nat.iter n generation_state (set_iterations k st)
  = set_iterations k (Nat.iter n generation_state st).
Proof.
  induction n as [|n IH]; [done|].
  simpl Nat.iter. by rewrite IH, generation_state_set_iterations.
Qed.

Lemma wf_set_iterations k st : wf st → wf (set_iterations k st).
Proof. intros [Hs Hc]. by split. Qed.

Lemma cell_border_next_generation g y x :
  border y x = true → length g = array_size →
  cell (next_generation g) y x = cell g y x.
Proof.
  unfold border. intros [Hin Hi]%andb_true_iff Hlen.
  rewrite cell_next_generation by done.
  by destruct (interior y x).
Qed.

Lemma length_iter_next_generation n g :
  length (Nat.iter n next_generation g) = length g.
Proof.
  induction n as [|n IH]; [done|].
  simpl Nat.iter. by rewrite length_next_generation.
Qed.

(** C4.  For every iteration count [n], [calculate] run for [n]
    generations succeeds and leaves in every border cell (row 0, row
    [HEIGHT - 1], column 0, column [WIDTH - 1]) the value the cell held
    before the run. *)
Theorem border_cells_unchanged (n : N) (st : state) :
  wf st →
  ∃ st' : state,
    calculate (set_iterations n st) = Some (tt, st')
    ∧ ∀ y x, 0 ≤ y < HEIGHT → 0 ≤ x < WIDTH →
             y = 0 ∨ y = HEIGHT - 1 ∨ x = 0 ∨ x = WIDTH - 1 →
             cell (screen st') y x = cell (screen st) y x.
Proof.
  intros Hwf. pose proof (wf_set_iterations n st Hwf) as Hwf'.
  eexists. split; [by apply calculate_run|].
  intros y x Hy Hx Hb.
  assert (border y x = true) as Hborder.
  { unfold border. apply andb_true_iff. split; [by apply in_array_spec|].
    apply negb_true_iff, not_true_is_false. rewrite interior_spec. lia. }
  rewrite screen_iter_generation_state by done. simpl screen.
  generalize (N.to_nat (_iterations (set_iterations n st))). intros k.
  destruct Hwf as [Hs _].
  induction k as [|k IH]; [done|].
  simpl Nat.iter. rewrite cell_border_next_generation; [done..|].
  by rewrite length_iter_next_generation.
Qed.

Lemma border_cells_unchanged_witness :
  wf demo_state
  ∧ ∃ st' : state,
      calculate (set_iterations 3 demo_state) = Some (tt, st')
      ∧ ∀ y x, 0 ≤ y < HEIGHT → 0 ≤ x < WIDTH →
               y = 0 ∨ y = HEIGHT - 1 ∨ x = 0 ∨ x = WIDTH - 1 →
               cell (screen st') y x = cell (screen demo_state) y x.
Proof.
  split; [exact wf_demo_state|].
  apply (border_cells_unchanged 3 demo_state). exact wf_demo_state.
Defined.

(** C5.  [calculate] runs the generation step exactly [_iterations]
    times, one after the other: it is the [n]-fold sequence of the body
    of its loop, it succeeds, it leaves the screen equal to the [n]-th
    iterate of the one-generation function on the screen at call time,
    and with [_iterations] equal to 0 it leaves the whole state, the
    grid included, as it found it. *)
Theorem calculate_iterates (st : state) :
  wf st →
  calculate st = generations (N.to_nat (_iterations st)) st
  ∧ (∃ st' : state,
       calculate st = Some (tt, st')
       ∧ st' = Nat.iter (N.to_nat (_iterations st)) generation_state st
       ∧ screen st'
         = Nat.iter (N.to_nat (_iterations st)) next_generation (screen st))
  ∧ (_iterations st = 0%N → calculate st = Some (tt, st)).
Proof.
  intros Hwf. split; [apply calculate_generations|]. split.
  - eexists. split; [by apply calculate_run|]. split; [done|].
    by apply screen_iter_generation_state.
  - intros H0. rewrite calculate_run, H0 by done. reflexivity.
Qed.

Lemma calculate_iterates_witness :
  wf demo_state
  ∧ calculate demo_state
    = generations (N.to_nat (_iterations demo_state)) demo_state
  ∧ (∃ st' : state,
       calculate demo_state = Some (tt, st')
       ∧ st' = Nat.iter (N.to_nat (_iterations demo_state))
                        generation_state demo_state
       ∧ screen st'
         = Nat.iter (N.to_nat (_iterations demo_state)) next_generation
                    (screen demo_state))
  ∧ (_iterations demo_state = 0%N →
     calculate demo_state = Some (tt, demo_state)).
Proof.
  split; [exact wf_demo_state|].
  apply (calculate_iterates demo_state). exact wf_demo_state.
Defined.

(** C9.  Running the driver for [m] generations and then, on the state
    it left, for [n] more leaves the state running it once for [m + n]
    generations leaves, up to the value of [_iterations] itself: same
    screen, same counts, same everything else. *)
Theorem calculate_additive (m n : N) (st : state) :
  wf st →
  ∃ st1 st2 st3 : state,
    calculate (set_iterations m st) = Some (tt, st1)
    ∧ calculate (set_iterations n st1) = Some (tt, st2)
    ∧ calculate (set_iterations (m + n) st) = Some (tt, st3)
    ∧ screen st2 = screen st3
    ∧ st2 = set_iterations n st3.
Proof.
  intros Hwf.
  assert (∀ k s, wf s →
            calculate (set_iterations k s)
            = Some (tt, set_iterations k
                          (Nat.iter (N.to_nat k) generation_state s)))
    as Hrun.
  { intros k s Hs. rewrite calculate_run by (by apply wf_set_iterations).
    simpl _iterations. by rewrite iter_generation_state_set_iterations. }
  eexists _, _, _. split; [by apply Hrun|].
  split; [apply Hrun, wf_set_iterations, wf_iter_generation_state, Hwf|].
  split; [by apply Hrun|].
  rewrite iter_generation_state_set_iterations.
  replace (N.to_nat (m + n)) with (N.to_nat n + N.to_nat m)%nat by lia.
  rewrite Nat.iter_add. split; reflexivity.
Qed.

Lemma calculate_additive_witness :
  wf demo_state
  ∧ ∃ st1 st2 st3 : state,
      calculate (set_iterations 1 demo_state) = Some (tt, st1)
      ∧ calculate (set_iterations 2 st1) = Some (tt, st2)
      ∧ calculate (set_iterations (1 + 2) demo_state) = Some (tt, st3)
      ∧ screen st2 = screen st3
      ∧ st2 = set_iterations 2 st3.
Proof.
  split; [exact wf_demo_state|].
  apply (calculate_additive 1 2 demo_state). exact wf_demo_state.
Defined.

(** ** Cells after calculate_field *)

Lemma cell_apply_counts fc g y x :
  in_array y x = true → length g = array_size →
  cell (apply_counts fc g) y x
  = if interior y x then life_rule (cell g y x) (cell fc y x)
    else cell g y x.
Proof.
  intros Hin Hlen.
  apply (cell_scan_all (λ y x v, life_rule v (cell fc y x))); done.
Qed.

Lemma life_rule_not_alive v c :
  v ≠ ALIVE → life_rule v c = if bool_decide (c = 3) then ALIVE else v.
Proof. intros Hv. unfold life_rule. by rewrite bool_decide_false. Qed.

(** C7.  An interior cell whose value is anything but [ALIVE] is handled
    by [calculate_field] as a [DEAD] cell is: it becomes [ALIVE] when
    its stored count is 3 and is not [ALIVE] afterwards otherwise; and
    running [calculate_field] on the same state with that cell set to
    [DEAD] gives a live cell there in exactly the same cases, and the
    same value in every other cell. *)
Theorem non_alive_treated_as_dead (st : state) (y x : Z) :
  wf st → 1 ≤ y ≤ HEIGHT - 2 → 1 ≤ x ≤ WIDTH - 2 →
  cell (screen st) y x ≠ ALIVE →
  ∃ st' std : state,
    calculate_field st = Some (tt, st')
    ∧ calculate_field (set_screen (<[idx y x := DEAD]> (screen st)) st)
      = Some (tt, std)
    ∧ (cell (_field_count st) y x = 3 → cell (screen st') y x = ALIVE)
    ∧ (cell (_field_count st) y x ≠ 3 → cell (screen st') y x ≠ ALIVE)
    ∧ (cell (screen st') y x = ALIVE ↔ cell (screen std) y x = ALIVE)
    ∧ (∀ y' x', 0 ≤ y' < HEIGHT → 0 ≤ x' < WIDTH →
                ¬ (y' = y ∧ x' = x) →
                cell (screen st') y' x' = cell (screen std) y' x').
Proof.
  intros Hwf Hy Hx Hv. pose proof Hwf as [Hs Hc].
  pose proof (interior_true y x Hy Hx) as Hi.
  pose proof (interior_in_array _ _ Hi) as Hin.
  assert (length (<[idx y x := DEAD]> (screen st)) = array_size) as Hs'
    by (by rewrite length_insert).
  eexists _, _. split; [by apply calculate_field_run|].
  split; [apply calculate_field_run; by apply wf_set_screen|].
  simpl screen. simpl _field_count.
  rewrite !cell_apply_counts, Hi by done.
  rewrite cell_insert, bool_decide_true by done.
  rewrite !life_rule_not_alive by done.
  split; [|split; [|split]].
  - intros ->. by rewrite bool_decide_true.
  - intros Hc3. by rewrite bool_decide_false.
  - case_bool_decide; [done|]. split; [done | discriminate].
  - intros y' x' Hy' Hx' Hne.
    assert (in_array y' x' = true) as Hin' by (by apply in_array_spec).
    rewrite !cell_apply_counts by done.
    by rewrite cell_insert, bool_decide_false by done.
Qed.

Lemma non_alive_treated_as_dead_witness :
  wf demo_state ∧ 1 ≤ 20 ≤ HEIGHT - 2 ∧ 1 ≤ 30 ≤ WIDTH - 2
  ∧ cell (screen demo_state) 20 30 ≠ ALIVE
  ∧ ∃ st' std : state,
      calculate_field demo_state = Some (tt, st')
      ∧ calculate_field
          (set_screen (<[idx 20 30 := DEAD]> (screen demo_state)) demo_state)
        = Some (tt, std)
      ∧ (cell (_field_count demo_state) 20 30 = 3 →
         cell (screen st') 20 30 = ALIVE)
      ∧ (cell (_field_count demo_state) 20 30 ≠ 3 →
         cell (screen st') 20 30 ≠ ALIVE)
      ∧ (cell (screen st') 20 30 = ALIVE ↔ cell (screen std) 20 30 = ALIVE)
      ∧ (∀ y' x', 0 ≤ y' < HEIGHT → 0 ≤ x' < WIDTH →
                  ¬ (y' = 20 ∧ x' = 30) →
                  cell (screen st') y' x' = cell (screen std) y' x').
Proof.
  split; [exact wf_demo_state|]. split; [unfold HEIGHT; lia|].
  split; [unfold WIDTH; lia|].
  split; [vm_compute; discriminate|].
  apply (non_alive_treated_as_dead demo_state 20 30);
    [exact wf_demo_state | unfold HEIGHT; lia | unfold WIDTH; lia
    | vm_compute; discriminate].
Defined.

(** C10.  An interior cell holding a value that is neither [ALIVE] nor
    [DEAD] keeps that very value, which is not replaced by [DEAD],
    through [n] generations when the count [count_neighbours] finds for
    it before each of them is not 3; for [n = 1] this is one generation
    step, whose stored count is the one [count_neighbours] finds on the
    state before the step. *)
Theorem odd_value_persists (st : state) (y x : Z) (n : nat) :
  wf st → 1 ≤ y ≤ HEIGHT - 2 → 1 ≤ x ≤ WIDTH - 2 →
  cell (screen st) y x ≠ ALIVE → cell (screen st) y x ≠ DEAD →
  (∀ (k : nat) (stk : state) (count : Z),
     (k < n)%nat → generations k st = Some (tt, stk) →
     count_neighbours y x stk = Some (count, stk) → count ≠ 3) →
  ∃ stn : state,
    generations n st = Some (tt, stn)
    ∧ cell (screen stn) y x = cell (screen st) y x
    ∧ cell (screen stn) y x ≠ DEAD
    ∧ (n = 1%nat →
       generation st = Some (tt, stn)
       ∧ count_neighbours y x st = Some (cell (_field_count stn) y x, st)).
Proof.
  intros Hwf Hy Hx Hva Hvd Hcounts.
  pose proof (interior_true y x Hy Hx) as Hi.
  pose proof (interior_in_array _ _ Hi) as Hin.
  assert (∀ s, wf s → cell (screen s) y x ≠ ALIVE →
               alive_neighbours (screen s) y x ≠ 3 →
               cell (screen (generation_state s)) y x = cell (screen s) y x)
    as Hstep.
  { intros s Hs Hsa Hcnt. pose proof Hs as [Hls _].
    rewrite screen_generation_state, cell_next_generation, Hi by done.
    by rewrite life_rule_not_alive, bool_decide_false. }
  exists (Nat.iter n generation_state st).
  split; [by apply generations_run|].
  assert (cell (screen (Nat.iter n generation_state st)) y x
          = cell (screen st) y x) as E.
  { clear Hvd. induction n as [|n IH]; [done|].
    assert (cell (screen (Nat.iter n generation_state st)) y x
            = cell (screen st) y x) as En.
    { apply IH. intros k stk count Hk. apply Hcounts. lia. }
    pose proof (wf_iter_generation_state n st Hwf) as Hwfn.
    simpl Nat.iter. rewrite Hstep, En; [done..| by rewrite En |].
    apply (Hcounts n (Nat.iter n generation_state st)); [lia | |].
    + by apply generations_run.
    + apply count_neighbours_run; [by destruct Hwfn | done]. }
  split; [done|]. split; [by rewrite E|].
  intros ->. destruct Hwf as [Hs Hc].
  split; [by apply generation_run|].
  rewrite count_neighbours_run by done. simpl.
  by rewrite cell_count_grid.
Qed.

Lemma odd_value_persists_witness :
  wf demo_state ∧ 1 ≤ 20 ≤ HEIGHT - 2 ∧ 1 ≤ 30 ≤ WIDTH - 2
  ∧ cell (screen demo_state) 20 30 ≠ ALIVE
  ∧ cell (screen demo_state) 20 30 ≠ DEAD
  ∧ (∀ (k : nat) (stk : state) (count : Z),
       (k < 2)%nat → generations k demo_state = Some (tt, stk) →
       count_neighbours 20 30 stk = Some (count, stk) → count ≠ 3)
  ∧ ∃ stn : state,
      generations 2 demo_state = Some (tt, stn)
      ∧ cell (screen stn) 20 30 = cell (screen demo_state) 20 30
      ∧ cell (screen stn) 20 30 ≠ DEAD
      ∧ (2%nat = 1%nat →
         generation demo_state = Some (tt, stn)
         ∧ count_neighbours 20 30 demo_state
           = Some (cell (_field_count stn) 20 30, demo_state)).
Proof.
  assert (∀ (k : nat) (stk : state) (count : Z),
            (k < 2)%nat → generations k demo_state = Some (tt, stk) →
            count_neighbours 20 30 stk = Some (count, stk) → count ≠ 3)
    as Hcounts.
  { intros k stk count Hk Hgen Hcnt. destruct k as [|[|k]]; [| |lia].
    - vm_compute in Hgen. injection Hgen as <-.
      vm_compute in Hcnt. injection Hcnt as <-. discriminate.
    - vm_compute in Hgen. injection Hgen as <-.
      vm_compute in Hcnt. injection Hcnt as <-. discriminate. }
  split; [exact wf_demo_state|]. split; [unfold HEIGHT; lia|].
  split; [unfold WIDTH; lia|].
  split; [vm_compute; discriminate|]. split; [vm_compute; discriminate|].
  split; [exact Hcounts|].
  apply (odd_value_persists demo_state 20 30 2);
    [exact wf_demo_state | unfold HEIGHT; lia | unfold WIDTH; lia
    | vm_compute; discriminate | vm_compute; discriminate | exact Hcounts].
Defined.

(** C8.  [init_screen] succeeds, draws one value from the random source
    for each interior cell, in scan order, and sets the cell to [DEAD]
    when the value drawn for it is less than [_limit] and to [ALIVE]
    otherwise; the cells outside the interior, the size of the screen
    and [_field_count] are as before. *)
Theorem init_screen_randomizes (st : state) :
  wf st →
  ∃ st' : state,
    init_screen st = Some (tt, st')
    ∧ (∀ y x, 1 ≤ y ≤ HEIGHT - 2 → 1 ≤ x ≤ WIDTH - 2 →
         0 ≤ rank y x < interior_cells
         ∧ cell (screen st') y x
           = if rand_src st (rand_calls st + Z.to_nat (rank y x))%nat
                <? _limit st
             then DEAD else ALIVE)
    ∧ rand_calls st' = (rand_calls st + Z.to_nat interior_cells)%nat
    ∧ (∀ y x, 0 ≤ y < HEIGHT → 0 ≤ x < WIDTH →
         ¬ (1 ≤ y ≤ HEIGHT - 2 ∧ 1 ≤ x ≤ WIDTH - 2) →
         cell (screen st') y x = cell (screen st) y x)
    ∧ length (screen st') = length (screen st)
    ∧ _field_count st' = _field_count st.
Proof.
  intros Hwf. pose proof Hwf as [Hs Hc].
  eexists. split; [by apply init_screen_run|].
  simpl. unfold random_grid. split; [|split; [done|split; [|split]]].
  - intros y x Hy Hx. pose proof (interior_true y x Hy Hx) as Hi.
    split; [unfold rank, interior_cells, HEIGHT, WIDTH in *; lia|].
    rewrite cell_scan_all, Hi by auto using interior_in_array. done.
  - intros y x Hy Hx Hni.
    rewrite cell_scan_all by (done || by apply in_array_spec).
    destruct (interior y x) eqn:Hi; [|done].
    apply interior_spec in Hi. done.
  - by rewrite length_scan_all.
  - done.
Qed.

Lemma init_screen_randomizes_witness :
  wf demo_state
  ∧ ∃ st' : state,
      init_screen demo_state = Some (tt, st')
      ∧ (∀ y x, 1 ≤ y ≤ HEIGHT - 2 → 1 ≤ x ≤ WIDTH - 2 →
           0 ≤ rank y x < interior_cells
           ∧ cell (screen st') y x
             = if rand_src demo_state
                    (rand_calls demo_state + Z.to_nat (rank y x))%nat
                  <? _limit demo_state
               then DEAD else ALIVE)
      ∧ rand_calls st'
        = (rand_calls demo_state + Z.to_nat interior_cells)%nat
      ∧ (∀ y x, 0 ≤ y < HEIGHT → 0 ≤ x < WIDTH →
           ¬ (1 ≤ y ≤ HEIGHT - 2 ∧ 1 ≤ x ≤ WIDTH - 2) →
           cell (screen st') y x = cell (screen demo_state) y x)
      ∧ length (screen st') = length (screen demo_state)
      ∧ _field_count st' = _field_count demo_state.
Proof.
  split; [exact wf_demo_state|].
  apply (init_screen_randomizes demo_state). exact wf_demo_state.
Defined.

(** ** The blinker *)

Lemma length_blinker_h y x : length (blinker_h y x) = array_size.
Proof. unfold blinker_h. by rewrite length_imap, length_replicate. Qed.

Lemma length_blinker_v y x : length (blinker_v y x) = array_size.
Proof. unfold blinker_v. by rewrite length_imap, length_replicate. Qed.

Lemma cell_blinker_h y x i j :
  in_array i j = true →
  cell (blinker_h y x) i j
  = if (i =? y) && (x - 1 <=? j) && (j <=? x + 1) then ALIVE else DEAD.
Proof.
  intros Hin. unfold cell, blinker_h.
  rewrite list_lookup_imap, lookup_replicate_2 by (by apply idx_lt).
  simpl. by rewrite row_of_idx, col_of_idx.
Qed.

Lemma cell_blinker_v y x i j :
  in_array i j = true →
  cell (blinker_v y x) i j
  = if (j =? x) && (y - 1 <=? i) && (i <=? y + 1) then ALIVE else DEAD.
Proof.
  intros Hin. unfold cell, blinker_v.
  rewrite list_lookup_imap, lookup_replicate_2 by (by apply idx_lt).
  simpl. by rewrite row_of_idx, col_of_idx.
Qed.

(** Settle every comparison of the goal, dropping the impossible
    branches. *)
Ltac settle_tests :=
  repeat match goal with
         | |- context [?a =? ?b] => destruct (Z.eqb_spec a b); try lia
         | |- context [?a <=? ?b] => destruct (Z.leb_spec a b); try lia
         end.

Ltac neighbour_in_array :=
  apply in_array_spec; unfold HEIGHT, WIDTH in *; lia.

Lemma next_generation_blinker_h y x :
  2 ≤ y ≤ HEIGHT - 3 → 2 ≤ x ≤ WIDTH - 3 →
  next_generation (blinker_h y x) = blinker_v y x.
Proof.
  intros Hy Hx.
  apply grid_eq;
    [by rewrite length_next_generation, length_blinker_h
    | apply length_blinker_v |].
  intros i j Hin.
  rewrite cell_next_generation by (done || apply length_blinker_h).
  destruct (interior i j) eqn:Hi.
  - apply interior_spec in Hi. rewrite alive_neighbours_bits.
    rewrite !cell_blinker_h, cell_blinker_v by neighbour_in_array.
    unfold HEIGHT, WIDTH in *. settle_tests; reflexivity.
  - rewrite cell_blinker_h, cell_blinker_v by done.
    apply not_true_iff_false in Hi. rewrite interior_spec in Hi.
    apply in_array_spec in Hin.
    unfold HEIGHT, WIDTH in *. settle_tests; reflexivity.
Qed.

Lemma next_generation_blinker_v y x :
  2 ≤ y ≤ HEIGHT - 3 → 2 ≤ x ≤ WIDTH - 3 →
  next_generation (blinker_v y x) = blinker_h y x.
Proof.
  intros Hy Hx.
  apply grid_eq;
    [by rewrite length_next_generation, length_blinker_v
    | apply length_blinker_h |].
  intros i j Hin.
  rewrite cell_next_generation by (done || apply length_blinker_v).
  destruct (interior i j) eqn:Hi.
  - apply interior_spec in Hi. rewrite alive_neighbours_bits.
    rewrite !cell_blinker_v, cell_blinker_h by neighbour_in_array.
    unfold HEIGHT, WIDTH in *. settle_tests; reflexivity.
  - rewrite cell_blinker_v, cell_blinker_h by done.
    apply not_true_iff_false in Hi. rewrite interior_spec in Hi.
    apply in_array_spec in Hin.
    unfold HEIGHT, WIDTH in *. settle_tests; reflexivity.
Qed.

Lemma wf_blinker_state : wf blinker_state.
Proof. split; reflexivity. Qed.

(** C6.  On a screen that is dead but for three live cells in a row,
    centred on a cell [(y, x)] whose eight neighbours are all interior
    cells, one generation leaves the three live cells in a column
    centred on the same cell and nothing else alive, and a second
    generation brings the row back. *)
Theorem blinker_oscillates (st : state) (y x : Z) :
  wf st → 2 ≤ y ≤ HEIGHT - 3 → 2 ≤ x ≤ WIDTH - 3 →
  screen st = blinker_h y x →
  ∃ st1 st2 : state,
    generation st = Some (tt, st1)
    ∧ screen st1 = blinker_v y x
    ∧ generation st1 = Some (tt, st2)
    ∧ screen st2 = blinker_h y x.
Proof.
  intros Hwf Hy Hx Hscr.
  pose proof (wf_generation_state st Hwf) as Hwf1.
  exists (generation_state st), (generation_state (generation_state st)).
  assert (screen (generation_state st) = blinker_v y x) as E1
    by (by rewrite screen_generation_state, Hscr,
                   next_generation_blinker_h).
  split; [by apply generation_run|]. split; [done|].
  split; [by apply generation_run|].
  by rewrite screen_generation_state, E1, next_generation_blinker_v.
Qed.

Lemma blinker_oscillates_witness :
  wf blinker_state ∧ 2 ≤ 10 ≤ HEIGHT - 3 ∧ 2 ≤ 10 ≤ WIDTH - 3
  ∧ screen blinker_state = blinker_h 10 10
  ∧ ∃ st1 st2 : state,
      generation blinker_state = Some (tt, st1)
      ∧ screen st1 = blinker_v 10 10
      ∧ generation st1 = Some (tt, st2)
      ∧ screen st2 = blinker_h 10 10.
Proof.
  split; [exact wf_blinker_state|]. split; [unfold HEIGHT; lia|].
  split; [unfold WIDTH; lia|]. split; [reflexivity|].
  apply (blinker_oscillates blinker_state 10 10);
    [exact wf_blinker_state | unfold HEIGHT; lia | unfold WIDTH; lia
    | reflexivity].
Defined.

(** In the first interior row the pattern touches the border: the cell
    above its centre is a border cell, which no generation writes, so
    the column does not appear. *)
Lemma blinker_next_to_border :
  next_generation (blinker_h 1 10) ≠ blinker_v 1 10
  ∧ cell (next_generation (blinker_h 1 10)) 0 10 = DEAD.
Proof. split; [vm_compute; discriminate | reflexivity]. Qed.

(** * Further properties of life.c *)

(** ** Filling an array from its start *)

Lemma fill_upto_0 {A} (v : A) l : fill_upto 0 v l = l.
Proof. reflexivity. Qed.

Lemma fill_upto_all {A} (v : A) l :
  fill_upto (length l) v l = replicate (length l) v.
Proof. unfold fill_upto. by rewrite drop_all, app_nil_r. Qed.

Lemma length_fill_upto {A} k (v : A) l :
  (k ≤ length l)%nat → length (fill_upto k v l) = length l.
Proof.
  intros Hk. unfold fill_upto.
  rewrite length_app, length_replicate, length_drop. lia.
Qed.

Lemma fill_upto_step {A} k (v : A) l :
  (k < length l)%nat → <[k := v]> (fill_upto k v l) = fill_upto (S k) v l.
Proof.
  unfold fill_upto. revert l.
  induction k as [|k IH]; intros [|a l] Hk; simpl in *; try lia.
  - done.
  - f_equal. apply IH. lia.
Qed.

Lemma write_screen_ptr_run offset v st :
  0 ≤ offset < HEIGHT * WIDTH →
  (Z.to_nat offset < length (screen st))%nat →
  write_screen_ptr offset v st
  = Some (tt, set_screen (<[Z.to_nat offset := v]> (screen st)) st).
Proof.
  intros Ho Hl. unfold write_screen_ptr.
  destruct (Z.leb_spec 0 offset); [|lia].
  destruct (Z.ltb_spec offset (HEIGHT * WIDTH)); [|lia].
  by rewrite bool_decide_true.
Qed.

Lemma set_screen_set_screen s s' st :
  set_screen s (set_screen s' st) = set_screen s st.
Proof. reflexivity. Qed.

Lemma set_screen_id st : set_screen (screen st) st = st.
Proof. by destruct st. Qed.

Lemma set_field_count_id st : set_field_count (_field_count st) st = st.
Proof. by destruct st. Qed.

(** ** fill_screen *)

Lemma fill_screen_run c st :
  length (screen st) = array_size →
  fill_screen c st = Some (tt, set_screen (replicate array_size c) st).
Proof.
  intros Hlen. unfold fill_screen.
  rewrite <- Hlen, <- fill_upto_all.
  replace (length (screen st)) with (Z.to_nat (HEIGHT * WIDTH)) at 1
    by (by rewrite Hlen).
  apply (for_lt_run
           (λ k, set_screen (fill_upto (Z.to_nat k) c (screen st)) st)).
  - unfold HEIGHT, WIDTH. lia.
  - by rewrite fill_upto_0, set_screen_id.
  - intros i Hi.
    assert (Z.to_nat i < length (screen st))%nat as Hlt
      by (rewrite Hlen; unfold array_size; lia).
    rewrite write_screen_ptr_run
      by (done || (simpl; rewrite length_fill_upto; lia)).
    simpl. rewrite set_screen_set_screen, fill_upto_step by done.
    do 4 f_equal. lia.
Qed.

(** ** clear_count *)

Lemma clear_count_run st :
  length (_field_count st) = array_size →
  clear_count st = Some (tt, set_field_count (replicate array_size 0) st).
Proof.
  intros Hlen. unfold clear_count.
  rewrite <- Hlen, <- fill_upto_all.
  set (F := λ k, set_field_count
                   (fill_upto (Z.to_nat k) 0 (_field_count st)) st).
  replace (set_field_count _ st) with (F (HEIGHT * WIDTH))
    by (unfold F; by rewrite Hlen).
  apply (for_lt_run (λ y, F (y * WIDTH))); [unfold HEIGHT; lia | |].
  { unfold F. by rewrite fill_upto_0, set_field_count_id. }
  intros y Hy.
  replace (F ((y + 1) * WIDTH)) with (F (y * WIDTH + WIDTH))
    by (f_equal; lia).
  apply (for_lt_run (λ x, F (y * WIDTH + x)));
    [unfold WIDTH; lia | f_equal; lia |].
  intros x Hx.
  assert (in_array y x = true) as Hin by (by apply in_array_spec).
  assert (idx y x < length (_field_count st))%nat as Hlt
    by (rewrite Hlen; by apply idx_lt).
  unfold F, write_count, store. rewrite Hin. simpl _field_count.
  change (Z.to_nat (y * WIDTH + x)) with (idx y x).
  rewrite bool_decide_true
    by (rewrite length_fill_upto; [done | by apply Nat.lt_le_incl]).
  simpl. do 2 f_equal. unfold set_field_count. simpl. f_equal.
  rewrite fill_upto_step by done. f_equal.
  unfold idx, HEIGHT, WIDTH in *. lia.
Qed.

Lemma cell_replicate v y x :
  in_array y x = true → cell (replicate array_size v) y x = v.
Proof.
  intros Hin. unfold cell. by rewrite lookup_replicate_2 by (by apply idx_lt).
Qed.

(** X1.  [fill_screen c] succeeds on a screen of the declared size and
    leaves [c] in every cell, border included, whatever the screen held
    before; it touches nothing but the screen. *)
Theorem fill_screen_fills (c : Z) (st : state) :
  length (screen st) = array_size →
  ∃ st' : state,
    fill_screen c st = Some (tt, st')
    ∧ (∀ y x, 0 ≤ y < HEIGHT → 0 ≤ x < WIDTH → cell (screen st') y x = c)
    ∧ length (screen st') = array_size
    ∧ st' = set_screen (screen st') st.
Proof.
  intros Hlen. eexists. split; [by apply fill_screen_run|].
  cbn [screen set_screen]. split; [|split; [apply length_replicate | done]].
  intros y x Hy Hx. apply cell_replicate. by apply in_array_spec.
Qed.

Lemma fill_screen_fills_witness :
  length (screen demo_state) = array_size
  ∧ ∃ st' : state,
      fill_screen SPACE demo_state = Some (tt, st')
      ∧ (∀ y x, 0 ≤ y < HEIGHT → 0 ≤ x < WIDTH →
                cell (screen st') y x = SPACE)
      ∧ length (screen st') = array_size
      ∧ st' = set_screen (screen st') demo_state.
Proof.
  split; [reflexivity|].
  apply (fill_screen_fills SPACE demo_state). reflexivity.
Defined.

(** X2.  [clear_count] succeeds on a count grid of the declared size and
    leaves 0 in every entry, border entries included; it touches
    nothing but [_field_count]. *)
Theorem clear_count_zeroes (st : state) :
  length (_field_count st) = array_size →
  ∃ st' : state,
    clear_count st = Some (tt, st')
    ∧ (∀ y x, 0 ≤ y < HEIGHT → 0 ≤ x < WIDTH →
              cell (_field_count st') y x = 0)
    ∧ length (_field_count st') = array_size
    ∧ st' = set_field_count (_field_count st') st.
Proof.
  intros Hlen. eexists. split; [by apply clear_count_run|].
  cbn [_field_count set_field_count].
  split; [|split; [apply length_replicate | done]].
  intros y x Hy Hx. apply cell_replicate. by apply in_array_spec.
Qed.

Lemma clear_count_zeroes_witness :
  length (_field_count demo_state) = array_size
  ∧ ∃ st' : state,
      clear_count demo_state = Some (tt, st')
      ∧ (∀ y x, 0 ≤ y < HEIGHT → 0 ≤ x < WIDTH →
                cell (_field_count st') y x = 0)
      ∧ length (_field_count st') = array_size
      ∧ st' = set_field_count (_field_count st') demo_state.
Proof.
  split; [reflexivity|].
  apply (clear_count_zeroes demo_state). reflexivity.
Defined.



(** ** count_neighbours outside the interior *)




(** ** count_field *)

Lemma count_grid_again g fc :
  length fc = array_size → count_grid g (count_grid g fc) = count_grid g fc.
Proof.
  intros Hlen. unfold count_grid.
  apply grid_eq; [by rewrite !length_scan_all..|].
  intros y x Hin.
  rewrite !cell_scan_all by (done || by rewrite length_scan_all).
  by destruct (interior y x).
Qed.

(** X5.  [count_field] succeeds, leaves the screen as it is, puts in
    every interior entry of [_field_count] the number of live
    neighbours of the cell, a value between 0 and 8 that the byte
    holds without loss, and leaves the border entries as they were;
    run a second time it changes nothing more. *)
Theorem count_field_effect (st : state) :
  wf st →
  ∃ st' : state,
    count_field st = Some (tt, st')
    ∧ st' = set_field_count (_field_count st') st
    ∧ (∀ y x, 1 ≤ y ≤ HEIGHT - 2 → 1 ≤ x ≤ WIDTH - 2 →
         cell (_field_count st') y x = alive_neighbours (screen st) y x
         ∧ 0 ≤ cell (_field_count st') y x ≤ 8)
    ∧ (∀ y x, 0 ≤ y < HEIGHT → 0 ≤ x < WIDTH →
         y = 0 ∨ y = HEIGHT - 1 ∨ x = 0 ∨ x = WIDTH - 1 →
         cell (_field_count st') y x = cell (_field_count st) y x)
    ∧ count_field st' = Some (tt, st').
Proof.
  intros Hwf. pose proof Hwf as [Hs Hc].
  eexists. split; [by apply count_field_run|].
  split; [done|]. cbn [_field_count set_field_count screen].
  split; [|split].
  - intros y x Hy Hx.
    rewrite cell_count_grid by (done || by apply interior_true).
    split; [done | apply alive_neighbours_range].
  - intros y x Hy Hx Hb. unfold count_grid.
    rewrite cell_scan_all by (done || by apply in_array_spec).
    destruct (interior y x) eqn:Hi; [|done].
    apply interior_spec in Hi. lia.
  - rewrite count_field_run.
    + cbn [_field_count set_field_count screen].
      rewrite count_grid_again by done. reflexivity.
    + apply wf_set_field_count; [|done].
      unfold count_grid. by rewrite length_scan_all.
Qed.

Lemma count_field_effect_witness :
  wf demo_state
  ∧ ∃ st' : state,
      count_field demo_state = Some (tt, st')
      ∧ st' = set_field_count (_field_count st') demo_state
      ∧ (∀ y x, 1 ≤ y ≤ HEIGHT - 2 → 1 ≤ x ≤ WIDTH - 2 →
           cell (_field_count st') y x
           = alive_neighbours (screen demo_state) y x
           ∧ 0 ≤ cell (_field_count st') y x ≤ 8)
      ∧ (∀ y x, 0 ≤ y < HEIGHT → 0 ≤ x < WIDTH →
           y = 0 ∨ y = HEIGHT - 1 ∨ x = 0 ∨ x = WIDTH - 1 →
           cell (_field_count st') y x = cell (_field_count demo_state) y x)
      ∧ count_field st' = Some (tt, st').
Proof.
  split; [exact wf_demo_state|].
  apply (count_field_effect demo_state). exact wf_demo_state.
Defined.

(** ** Grids of live and dead cells *)

Lemma two_valued_next_generation g :
  two_valued g → two_valued (next_generation g).
Proof.
  unfold two_valued. rewrite !Forall_lookup. intros Hg i v.
  unfold next_generation. rewrite list_lookup_imap.
  destruct (g !! i) as [w|] eqn:E; [|done]. intros [= <-].
  specialize (Hg i w E).
  destruct (interior _ _); [|done].
  unfold life_rule. repeat case_bool_decide; auto.
Qed.

Lemma two_valued_iter_next_generation n g :
  two_valued g → two_valued (Nat.iter n next_generation g).
Proof.
  intros Hg. induction n as [|n IH]; [done|].
  by apply two_valued_next_generation.
Qed.

(** X6.  A screen on which every cell is [ALIVE] or [DEAD] is again
    such a screen after [calculate], for every number of
    iterations. *)
Theorem calculate_keeps_two_valued (n : N) (st : state) :
  wf st → two_valued (screen st) →
  ∃ st' : state,
    calculate (set_iterations n st) = Some (tt, st')
    ∧ two_valued (screen st').
Proof.
  intros Hwf Hg. pose proof (wf_set_iterations n st Hwf) as Hwf'.
  eexists. split; [by apply calculate_run|].
  rewrite screen_iter_generation_state by done.
  by apply two_valued_iter_next_generation.
Qed.

Lemma calculate_keeps_two_valued_witness :
  wf blinker_state ∧ two_valued (screen blinker_state)
  ∧ ∃ st' : state,
      calculate (set_iterations 3 blinker_state) = Some (tt, st')
      ∧ two_valued (screen st').
Proof.
  split; [exact wf_blinker_state|].
  split; [apply (bool_decide_unpack _); vm_compute; exact I|].
  apply (calculate_keeps_two_valued 3 blinker_state);
    [exact wf_blinker_state
    | apply (bool_decide_unpack _); vm_compute; exact I].
Defined.

(** ** A screen without live cells *)

Lemma cell_lifeless g y x : lifeless g → cell g y x ≠ ALIVE.
Proof.
  unfold lifeless, cell. rewrite Forall_lookup. intros Hg.
  destruct (g !! idx y x) as [v|] eqn:E; [by apply (Hg _ _ E) | done].
Qed.

Lemma alive_neighbours_lifeless g y x :
  lifeless g → alive_neighbours g y x = 0.
Proof.
  intros Hg. rewrite alive_neighbours_bits. unfold alive_bit.
  rewrite !decide_False by (by apply cell_lifeless). done.
Qed.

Lemma next_generation_lifeless g : lifeless g → next_generation g = g.
Proof.
  intros Hg. apply list_eq. intros i.
  unfold next_generation. rewrite list_lookup_imap.
  destruct (g !! i) as [v|] eqn:E; [|done]. simpl. f_equal.
  destruct (interior _ _); [|done].
  rewrite alive_neighbours_lifeless by done.
  apply life_rule_not_alive.
  unfold lifeless in Hg. rewrite Forall_lookup in Hg. by apply (Hg i).
Qed.

(** X7.  A screen without a single [ALIVE] cell is left exactly as it is
    by [calculate], for every number of iterations: nothing is born,
    and whatever bytes the cells hold, [DEAD] or not, stay. *)
Theorem lifeless_screen_is_fixed (n : N) (st : state) :
  wf st → lifeless (screen st) →
  ∃ st' : state,
    calculate (set_iterations n st) = Some (tt, st')
    ∧ screen st' = screen st.
Proof.
  intros Hwf Hg. pose proof (wf_set_iterations n st Hwf) as Hwf'.
  eexists. split; [by apply calculate_run|].
  rewrite screen_iter_generation_state by done.
  cbn [screen set_iterations _iterations].
  generalize (N.to_nat n). intros k.
  induction k as [|k IH]; [done|].
  simpl Nat.iter. rewrite IH. by apply next_generation_lifeless.
Qed.

Lemma lifeless_screen_is_fixed_witness :
  wf scribbled_state ∧ lifeless (screen scribbled_state)
  ∧ ∃ st' : state,
      calculate (set_iterations 5 scribbled_state) = Some (tt, st')
      ∧ screen st' = screen scribbled_state.
Proof.
  split; [split; reflexivity|].
  split; [apply (bool_decide_unpack _); vm_compute; exact I|].
  apply (lifeless_screen_is_fixed 5 scribbled_state);
    [split; reflexivity
    | apply (bool_decide_unpack _); vm_compute; exact I].
Defined.

(** ** What calculate leaves behind *)

Lemma iter_generation_state_frame n st :
  wf st →
  _limit (Nat.iter n generation_state st) = _limit st
  ∧ _iterations (Nat.iter n generation_state st) = _iterations st
  ∧ rand_calls (Nat.iter n generation_state st) = rand_calls st
  ∧ rand_src (Nat.iter n generation_state st) = rand_src st
  ∧ ∀ y x, border y x = true →
           cell (_field_count (Nat.iter n generation_state st)) y x
           = cell (_field_count st) y x.
Proof.
  intros Hwf. induction n as [|n IH]; [done|].
  destruct IH as (Hl & Hi & Hc & Hr & Hb).
  pose proof (wf_iter_generation_state n st Hwf) as [_ Hfc].
  simpl Nat.iter. cbn [generation_state set_screen set_field_count
    _limit _iterations rand_calls rand_src _field_count].
  repeat split; try done.
  intros y x Hyx. rewrite <- Hb by done.
  unfold border in Hyx. apply andb_true_iff in Hyx as [Hin Hni].
  unfold count_grid. rewrite cell_scan_all by done.
  by destruct (interior y x).
Qed.

(** X8.  [calculate] with at least one iteration succeeds and changes
    only the two grids.  The counts it leaves in the interior of
    [_field_count] are those of the screen before the last generation,
    not of the screen it returns; the border entries of [_field_count]
    and [_limit], [_iterations] and the random source are as
    before. *)
Theorem calculate_leaves_previous_counts (n : N) (st : state) :
  wf st →
  ∃ st' : state,
    calculate (set_iterations (N.succ n) st) = Some (tt, st')
    ∧ screen st'
      = next_generation (Nat.iter (N.to_nat n) next_generation (screen st))
    ∧ (∀ y x, 1 ≤ y ≤ HEIGHT - 2 → 1 ≤ x ≤ WIDTH - 2 →
         cell (_field_count st') y x
         = alive_neighbours
             (Nat.iter (N.to_nat n) next_generation (screen st)) y x)
    ∧ (∀ y x, 0 ≤ y < HEIGHT → 0 ≤ x < WIDTH →
         y = 0 ∨ y = HEIGHT - 1 ∨ x = 0 ∨ x = WIDTH - 1 →
         cell (_field_count st') y x = cell (_field_count st) y x)
    ∧ _limit st' = _limit st
    ∧ _iterations st' = N.succ n
    ∧ rand_calls st' = rand_calls st
    ∧ rand_src st' = rand_src st.
Proof.
  intros Hwf.
  pose proof (wf_set_iterations (N.succ n) st Hwf) as Hwf'.
  eexists. split; [by apply calculate_run|].
  cbn [_iterations set_iterations].
  rewrite iter_generation_state_set_iterations.
  replace (N.to_nat (N.succ n)) with (S (N.to_nat n)) by lia.
  generalize (N.to_nat n). intros k.
  destruct (iter_generation_state_frame (S k) st Hwf)
    as (Hl & Hi & Hc & Hr & Hb).
  pose proof (wf_iter_generation_state k st Hwf) as Hwfk.
  cbn [screen _field_count _limit _iterations rand_calls rand_src
       set_iterations].
  split; [|split; [|split]]; [| | |done].
  - rewrite screen_iter_generation_state by done. done.
  - intros y x Hy Hx. simpl Nat.iter.
    cbn [generation_state set_screen set_field_count _field_count].
    rewrite cell_count_grid
      by (by apply interior_true || by destruct Hwfk).
    by rewrite screen_iter_generation_state.
  - intros y x Hy Hx Hyx. apply Hb.
    unfold border. apply andb_true_iff. split; [by apply in_array_spec|].
    apply negb_true_iff, not_true_is_false. rewrite interior_spec. lia.
Qed.

Lemma calculate_leaves_previous_counts_witness :
  wf demo_state
  ∧ ∃ st' : state,
      calculate (set_iterations (N.succ 1) demo_state) = Some (tt, st')
      ∧ screen st'
        = next_generation
            (Nat.iter (N.to_nat 1) next_generation (screen demo_state))
      ∧ (∀ y x, 1 ≤ y ≤ HEIGHT - 2 → 1 ≤ x ≤ WIDTH - 2 →
           cell (_field_count st') y x
           = alive_neighbours
               (Nat.iter (N.to_nat 1) next_generation (screen demo_state))
               y x)
      ∧ (∀ y x, 0 ≤ y < HEIGHT → 0 ≤ x < WIDTH →
           y = 0 ∨ y = HEIGHT - 1 ∨ x = 0 ∨ x = WIDTH - 1 →
           cell (_field_count st') y x = cell (_field_count demo_state) y x)
      ∧ _limit st' = _limit demo_state
      ∧ _iterations st' = N.succ 1
      ∧ rand_calls st' = rand_calls demo_state
      ∧ rand_src st' = rand_src demo_state.
Proof.
  split; [exact wf_demo_state|].
  apply (calculate_leaves_previous_counts 1 demo_state).
  exact wf_demo_state.
Defined.

(** ** The block *)

Lemma length_block y x : length (block y x) = array_size.
Proof. unfold block. by rewrite length_imap, length_replicate. Qed.

Lemma cell_block y x i j :
  in_array i j = true →
  cell (block y x) i j
  = if (y <=? i) && (i <=? y + 1) && (x <=? j) && (j <=? x + 1)
    then ALIVE else DEAD.
Proof.
  intros Hin. unfold cell, block.
  rewrite list_lookup_imap, lookup_replicate_2 by (by apply idx_lt).
  simpl. by rewrite row_of_idx, col_of_idx.
Qed.

Lemma next_generation_block y x :
  1 ≤ y ≤ HEIGHT - 3 → 1 ≤ x ≤ WIDTH - 3 →
  next_generation (block y x) = block y x.
Proof.
  intros Hy Hx.
  apply grid_eq;
    [by rewrite length_next_generation, length_block
    | apply length_block |].
  intros i j Hin.
  rewrite cell_next_generation by (done || apply length_block).
  destruct (interior i j) eqn:Hi; [|done].
  apply interior_spec in Hi. rewrite alive_neighbours_bits.
  rewrite !cell_block by neighbour_in_array.
  unfold HEIGHT, WIDTH in *. settle_tests; reflexivity.
Qed.

(** X9.  A two by two block of live cells on an otherwise dead screen,
    anywhere in the interior, even against the border, is left as it
    is by [calculate], for every number of iterations. *)
Theorem block_is_still (n : N) (st : state) (y x : Z) :
  wf st → 1 ≤ y ≤ HEIGHT - 3 → 1 ≤ x ≤ WIDTH - 3 →
  screen st = block y x →
  ∃ st' : state,
    calculate (set_iterations n st) = Some (tt, st')
    ∧ screen st' = block y x.
Proof.
  intros Hwf Hy Hx Hscr. pose proof (wf_set_iterations n st Hwf) as Hwf'.
  eexists. split; [by apply calculate_run|].
  rewrite screen_iter_generation_state by done.
  cbn [screen set_iterations _iterations]. rewrite Hscr.
  generalize (N.to_nat n). intros k.
  induction k as [|k IH]; [done|].
  simpl Nat.iter. rewrite IH. by apply next_generation_block.
Qed.

Lemma block_is_still_witness :
  wf (set_screen (block 1 1) demo_state)
  ∧ 1 ≤ 1 ≤ HEIGHT - 3 ∧ 1 ≤ 1 ≤ WIDTH - 3
  ∧ screen (set_screen (block 1 1) demo_state) = block 1 1
  ∧ ∃ st' : state,
      calculate (set_iterations 4 (set_screen (block 1 1) demo_state))
      = Some (tt, st')
      ∧ screen st' = block 1 1.
Proof.
  split; [split; reflexivity|]. split; [unfold HEIGHT; lia|].
  split; [unfold WIDTH; lia|]. split; [reflexivity|].
  apply (block_is_still 4 (set_screen (block 1 1) demo_state) 1 1);
    [split; reflexivity | unfold HEIGHT; lia | unfold WIDTH; lia
    | reflexivity].
Defined.

(** ** The extremes of the threshold *)

(** X10.  With [_limit] at most 0 and a random source that, like
    [rand()], yields no negative value, [init_screen] makes every
    interior cell [ALIVE]: the screen is filled completely. *)
Theorem init_screen_fills_completely (st : state) :
  wf st → _limit st ≤ 0 → (∀ k, 0 ≤ rand_src st k) →
  ∃ st' : state,
    init_screen st = Some (tt, st')
    ∧ ∀ y x, 1 ≤ y ≤ HEIGHT - 2 → 1 ≤ x ≤ WIDTH - 2 →
             cell (screen st') y x = ALIVE.
Proof.
  intros Hwf Hlim Hsrc. pose proof Hwf as [Hs Hc].
  eexists. split; [by apply init_screen_run|].
  intros y x Hy Hx. cbn [screen set_screen]. unfold random_grid.
  rewrite cell_scan_all, (interior_true y x Hy Hx)
    by (done || by apply interior_in_array, interior_true).
  unfold random_cell.
  destruct (Z.ltb_spec (rand_src st (rand_calls st + Z.to_nat (rank y x)))
                       (_limit st)) as [Hlt|]; [|done].
  specialize (Hsrc (rand_calls st + Z.to_nat (rank y x))%nat). lia.
Qed.

Lemma init_screen_fills_completely_witness :
  wf (set_limit 0 demo_state) ∧ _limit (set_limit 0 demo_state) ≤ 0
  ∧ (∀ k, 0 ≤ rand_src (set_limit 0 demo_state) k)
  ∧ ∃ st' : state,
      init_screen (set_limit 0 demo_state) = Some (tt, st')
      ∧ ∀ y x, 1 ≤ y ≤ HEIGHT - 2 → 1 ≤ x ≤ WIDTH - 2 →
               cell (screen st') y x = ALIVE.
Proof.
  split; [split; reflexivity|]. split; [simpl; lia|].
  split; [intros k; simpl; lia|].
  apply (init_screen_fills_completely (set_limit 0 demo_state));
    [split; reflexivity | simpl; lia | intros k; simpl; lia].
Defined.

(** X11.  With every value of the random source below [_limit],
    [init_screen] makes every interior cell [DEAD]. *)
Theorem init_screen_leaves_no_cell (st : state) :
  wf st → (∀ k, rand_src st k < _limit st) →
  ∃ st' : state,
    init_screen st = Some (tt, st')
    ∧ ∀ y x, 1 ≤ y ≤ HEIGHT - 2 → 1 ≤ x ≤ WIDTH - 2 →
             cell (screen st') y x = DEAD.
Proof.
  intros Hwf Hsrc. pose proof Hwf as [Hs Hc].
  eexists. split; [by apply init_screen_run|].
  intros y x Hy Hx. cbn [screen set_screen]. unfold random_grid.
  rewrite cell_scan_all, (interior_true y x Hy Hx)
    by (done || by apply interior_in_array, interior_true).
  unfold random_cell.
  destruct (Z.ltb_spec (rand_src st (rand_calls st + Z.to_nat (rank y x)))
                       (_limit st)) as [|Hge]; [done|].
  specialize (Hsrc (rand_calls st + Z.to_nat (rank y x))%nat). lia.
Qed.

Lemma init_screen_leaves_no_cell_witness :
  wf (blank_state 1 32767 (λ k, Z.of_nat k mod 1000))
  ∧ (∀ k, rand_src (blank_state 1 32767 (λ k, Z.of_nat k mod 1000)) k
          < _limit (blank_state 1 32767 (λ k, Z.of_nat k mod 1000)))
  ∧ ∃ st' : state,
      init_screen (blank_state 1 32767 (λ k, Z.of_nat k mod 1000))
      = Some (tt, st')
      ∧ ∀ y x, 1 ≤ y ≤ HEIGHT - 2 → 1 ≤ x ≤ WIDTH - 2 →
               cell (screen st') y x = DEAD.
Proof.
  assert (∀ k : nat, Z.of_nat k mod 1000 < 32767) as Hsrc.
  { intros k. pose proof (Z.mod_pos_bound (Z.of_nat k) 1000). lia. }
  split; [split; reflexivity|]. split; [exact Hsrc|].
  apply (init_screen_leaves_no_cell
           (blank_state 1 32767 (λ k, Z.of_nat k mod 1000)));
    [split; reflexivity | exact Hsrc].
Defined.

(** ** The program from a cleared screen *)

Lemma two_valued_random_grid src c0 limit g :
  two_valued g → two_valued (random_grid src c0 limit g).
Proof.
  unfold two_valued. rewrite !Forall_lookup. intros Hg i v.
  unfold random_grid, scan_all. rewrite list_lookup_imap.
  destruct (g !! i) as [w|] eqn:E; [|done]. intros [= <-].
  destruct (interior _ _); [|by apply (Hg i)].
  unfold random_cell. destruct (_ <? _); auto.
Qed.

Lemma cell_border_iter_next_generation n g y x :
  border y x = true → length g = array_size →
  cell (Nat.iter n next_generation g) y x = cell g y x.
Proof.
  intros Hb Hlen. induction n as [|n IH]; [done|].
  simpl Nat.iter. rewrite cell_border_next_generation; [done..|].
  by rewrite length_iter_next_generation.
Qed.

(** X12.  The three calls [main] makes once it has its parameters,
    [fill_screen(SPACE)], [init_screen()] and [calculate()], succeed one
    after the other from any state with arrays of the declared size.
    The screen they leave holds only [ALIVE] and [DEAD] cells, has a
    [DEAD] border, and is the [_iterations]-th generation of the
    random grid drawn on a cleared screen: what the screen and the
    counts held before plays no part. *)
Theorem cleared_randomized_run (st : state) :
  wf st →
  ∃ st' : state,
    (fill_screen SPACE ;;; init_screen ;;; calculate) st = Some (tt, st')
    ∧ screen st'
      = Nat.iter (N.to_nat (_iterations st)) next_generation
          (random_grid (rand_src st) (rand_calls st) (_limit st)
                       (replicate array_size SPACE))
    ∧ two_valued (screen st')
    ∧ (∀ y x, 0 ≤ y < HEIGHT → 0 ≤ x < WIDTH →
         y = 0 ∨ y = HEIGHT - 1 ∨ x = 0 ∨ x = WIDTH - 1 →
         cell (screen st') y x = DEAD)
    ∧ rand_calls st' = (rand_calls st + Z.to_nat interior_cells)%nat.
Proof.
  intros Hwf. pose proof Hwf as [Hs Hc].
  set (st1 := set_screen (replicate array_size SPACE) st).
  assert (wf st1) as Hwf1
    by (apply wf_set_screen; [apply length_replicate | done]).
  set (g := random_grid (rand_src st) (rand_calls st) (_limit st)
                        (replicate array_size SPACE)).
  set (st2 := set_screen g
                (set_rand_calls
                   (rand_calls st + Z.to_nat interior_cells)%nat st1)).
  assert (length g = array_size) as Hg
    by (unfold g, random_grid; by rewrite length_scan_all, length_replicate).
  assert (wf st2) as Hwf2 by (by split).
  exists (Nat.iter (N.to_nat (_iterations st)) generation_state st2).
  split.
  { rewrite (bind_Some _ _ _ tt st1) by (by apply fill_screen_run).
    rewrite (bind_Some _ _ _ tt st2) by exact (init_screen_run st1 Hwf1).
    exact (calculate_run st2 Hwf2). }
  rewrite screen_iter_generation_state by done.
  destruct (iter_generation_state_frame (N.to_nat (_iterations st)) st2 Hwf2)
    as (_ & _ & Hcalls & _).
  change (screen st2) with g.
  split; [done|]. split; [|split; [|done]].
  - apply two_valued_iter_next_generation, two_valued_random_grid.
    apply Forall_replicate. by right.
  - intros y x Hy Hx Hyx.
    assert (in_array y x = true) as Hin by (by apply in_array_spec).
    assert (interior y x = false) as Hni
      by (apply not_true_is_false; rewrite interior_spec; lia).
    rewrite cell_border_iter_next_generation;
      [| unfold border; by rewrite Hin, Hni | done].
    unfold g, random_grid.
    rewrite cell_scan_all, Hni by (done || apply length_replicate).
    by apply cell_replicate.
Qed.

Lemma cleared_randomized_run_witness :
  wf demo_state
  ∧ ∃ st' : state,
      (fill_screen SPACE ;;; init_screen ;;; calculate) demo_state
      = Some (tt, st')
      ∧ screen st'
        = Nat.iter (N.to_nat (_iterations demo_state)) next_generation
            (random_grid (rand_src demo_state) (rand_calls demo_state)
                         (_limit demo_state) (replicate array_size SPACE))
      ∧ two_valued (screen st')
      ∧ (∀ y x, 0 ≤ y < HEIGHT → 0 ≤ x < WIDTH →
           y = 0 ∨ y = HEIGHT - 1 ∨ x = 0 ∨ x = WIDTH - 1 →
           cell (screen st') y x = DEAD)
      ∧ rand_calls st'
        = (rand_calls demo_state + Z.to_nat interior_cells)%nat.
Proof.
  split; [exact wf_demo_state|].
  apply (cleared_randomized_run demo_state). exact wf_demo_state.
Defined.

(** ** Mirror images *)

Lemma length_mirror_lr g : length (mirror_lr g) = length g.
Proof. unfold mirror_lr. apply length_imap. Qed.

Lemma length_mirror_tb g : length (mirror_tb g) = length g.
Proof. unfold mirror_tb. apply length_imap. Qed.

Lemma cell_mirror_lr g y x :
  in_array y x = true → length g = array_size →
  cell (mirror_lr g) y x = cell g y (WIDTH - 1 - x).
Proof.
  intros Hin Hlen. unfold cell at 1, mirror_lr.
  rewrite list_lookup_imap, cell_lookup by done. simpl.
  by rewrite row_of_idx, col_of_idx.
Qed.

Lemma cell_mirror_tb g y x :
  in_array y x = true → length g = array_size →
  cell (mirror_tb g) y x = cell g (HEIGHT - 1 - y) x.
Proof.
  intros Hin Hlen. unfold cell at 1, mirror_tb.
  rewrite list_lookup_imap, cell_lookup by done. simpl.
  by rewrite row_of_idx, col_of_idx.
Qed.

Lemma next_generation_mirror_lr g :
  length g = array_size →
  next_generation (mirror_lr g) = mirror_lr (next_generation g).
Proof.
  intros Hlen.
  apply grid_eq;
    [by rewrite length_next_generation, length_mirror_lr
    | by rewrite length_mirror_lr, length_next_generation |].
  intros y x Hin.
  assert (in_array y (WIDTH - 1 - x) = true) as Hin'
    by (apply in_array_spec in Hin; neighbour_in_array).
  rewrite cell_next_generation by (done || by rewrite length_mirror_lr).
  rewrite (cell_mirror_lr (next_generation g))
    by (done || by rewrite length_next_generation).
  rewrite cell_next_generation by done.
  replace (interior y (WIDTH - 1 - x)) with (interior y x)
    by (apply eq_iff_eq_true; rewrite !interior_spec;
        unfold HEIGHT, WIDTH; lia).
  destruct (interior y x) eqn:Hi; [|by apply cell_mirror_lr].
  apply interior_spec in Hi. f_equal; [by apply cell_mirror_lr|].
  rewrite !alive_neighbours_bits.
  rewrite !cell_mirror_lr by (done || neighbour_in_array).
  replace (WIDTH - 1 - (x - 1)) with (WIDTH - 1 - x + 1) by lia.
  replace (WIDTH - 1 - (x + 1)) with (WIDTH - 1 - x - 1) by lia.
  lia.
Qed.

Lemma next_generation_mirror_tb g :
  length g = array_size →
  next_generation (mirror_tb g) = mirror_tb (next_generation g).
Proof.
  intros Hlen.
  apply grid_eq;
    [by rewrite length_next_generation, length_mirror_tb
    | by rewrite length_mirror_tb, length_next_generation |].
  intros y x Hin.
  assert (in_array (HEIGHT - 1 - y) x = true) as Hin'
    by (apply in_array_spec in Hin; neighbour_in_array).
  rewrite cell_next_generation by (done || by rewrite length_mirror_tb).
  rewrite (cell_mirror_tb (next_generation g))
    by (done || by rewrite length_next_generation).
  rewrite cell_next_generation by done.
  replace (interior (HEIGHT - 1 - y) x) with (interior y x)
    by (apply eq_iff_eq_true; rewrite !interior_spec;
        unfold HEIGHT, WIDTH; lia).
  destruct (interior y x) eqn:Hi; [|by apply cell_mirror_tb].
  apply interior_spec in Hi. f_equal; [by apply cell_mirror_tb|].
  rewrite !alive_neighbours_bits.
  rewrite !cell_mirror_tb by (done || neighbour_in_array).
  replace (HEIGHT - 1 - (y - 1)) with (HEIGHT - 1 - y + 1) by lia.
  replace (HEIGHT - 1 - (y + 1)) with (HEIGHT - 1 - y - 1) by lia.
  lia.
Qed.

(** X13.  The rows are scanned top to bottom and the cells left to
    right while the screen is updated in place, yet the result has no
    direction: one generation of the left-right mirror image of a
    screen is the mirror image of one generation of the screen, and
    the same holds for the top-bottom mirror image. *)
Theorem generation_commutes_with_mirrors (st : state) :
  wf st →
  ∃ st1 st2 st3 : state,
    generation st = Some (tt, st1)
    ∧ generation (set_screen (mirror_lr (screen st)) st) = Some (tt, st2)
    ∧ screen st2 = mirror_lr (screen st1)
    ∧ generation (set_screen (mirror_tb (screen st)) st) = Some (tt, st3)
    ∧ screen st3 = mirror_tb (screen st1).
Proof.
  intros Hwf. pose proof Hwf as [Hs Hc].
  assert (wf (set_screen (mirror_lr (screen st)) st)) as Hlr
    by (apply wf_set_screen; [by rewrite length_mirror_lr | done]).
  assert (wf (set_screen (mirror_tb (screen st)) st)) as Htb
    by (apply wf_set_screen; [by rewrite length_mirror_tb | done]).
  eexists _, _, _.
  split; [by apply generation_run|].
  split; [by apply generation_run|].
  split; [rewrite !screen_generation_state by done;
          by apply next_generation_mirror_lr|].
  split; [by apply generation_run|].
  rewrite !screen_generation_state by done.
  by apply next_generation_mirror_tb.
Qed.

Lemma generation_commutes_with_mirrors_witness :
  wf demo_state
  ∧ ∃ st1 st2 st3 : state,
      generation demo_state = Some (tt, st1)
      ∧ generation (set_screen (mirror_lr (screen demo_state)) demo_state)
        = Some (tt, st2)
      ∧ screen st2 = mirror_lr (screen st1)
      ∧ generation (set_screen (mirror_tb (screen demo_state)) demo_state)
        = Some (tt, st3)
      ∧ screen st3 = mirror_tb (screen st1).
Proof.
  split; [exact wf_demo_state|].
  apply (generation_commutes_with_mirrors demo_state). exact wf_demo_state.
Defined.
